(** * A radix trie of C strings: model of radix.c / radix.h

    The tree is an ordered set of nul-terminated strings.  Every node owns
    its [sib] and [child] pointers exclusively and there are no back
    references, so the heap of nodes is modelled by an inductive tree in
    which [NULL] is the absent pointer.

    - [char] values are integers; the models compare them the way the C
      code does ([<], [>], [==]).  A string handed to the library is a
      [list char] holding the bytes before the terminator; reading the
      string at its length gives the terminator 0.  The values are those
      the C code sees: 1..255 for the bytes of a string where [char] is
      unsigned; where it is signed, -128..-1 for the bytes 0x80..0xff and
      1..127 for the others.  Nothing below depends on the range: a string
      is any list of [char] values other than 0.
    - [len] of a node is the length of its [substr]; sizes are assumed to
      fit [unsigned] and [size_t].
    - [malloc] and [realloc] may fail: an oracle ([heap]) gives the outcome
      of each call in turn. *)

From Stdlib Require Import ZArith List Bool Lia Arith Sorted.
Import ListNotations.

Local Open Scope Z_scope.

(** ** Data model *)

(** The C type [char], by value. *)
Abbreviation char := Z (only parsing).

(** [struct radix_trie]; [len] is [length substr]. *)
Inductive radix_trie : Type :=
| NULL
| Node (sib : radix_trie) (child : radix_trie) (substr : list char).

(** [str[i]] for a nul-terminated string whose content is [str]. *)
Definition str_at (str : list char) (i : nat) : char := nth i str 0.

(** [node->substr[i]] *)
Definition substr_at (substr : list char) (i : nat) : char := nth i substr 0.

(** Outcome of the allocation calls still to come, [true] for success; an
    exhausted oracle lets every later call succeed. *)
Definition heap := list bool.

Definition alloc (h : heap) : bool * heap :=
  match h with
  | [] => (true, [])
  | ok :: h' => (ok, h')
  end.

(** ** radix_trie_diff *)

(** First index where [substr] and [str] differ, the index of the
    terminator of [str], or [len], whichever comes first.  The C loop
    advances [res] while [res < len && substr[res] == str[res] && str[res]]. *)
Fixpoint radix_trie_diff (substr str : list char) : nat :=
  match substr, str with
  | a :: substr', b :: str' =>
      if (a =? b) && negb (b =? 0) then S (radix_trie_diff substr' str') else O
  | _, _ => O
  end.

(** ** radix_trie_lsfind *)

(** A position in a sibling list (the C [struct radix_trie **]): the nodes
    passed over, each as its [child] and [substr], and the list that starts
    at the position. *)
Definition passed_nodes := list (radix_trie * list char).

(** Store [t] through the position: the passed nodes are linked in front. *)
Fixpoint relink (passed : passed_nodes) (t : radix_trie) : radix_trie :=
  match passed with
  | [] => t
  | (child, substr) :: passed' => Node (relink passed' t) child substr
  end.

Fixpoint radix_trie_lsfind (head : radix_trie) (chr : char)
  : passed_nodes * radix_trie :=
  match head with
  | Node sib child substr =>
      if substr_at substr 0 <? chr then
        let (passed, pos) := radix_trie_lsfind sib chr in
        ((child, substr) :: passed, pos)
      else ([], head)
  | NULL => ([], NULL)
  end.

(** ** Insertion *)

(** [radix_trie_make_suffix]: [pos] is the value of [*pos]; the result is
    the return value, the new [*pos] and the rest of the oracle.  On
    success the caller's [str] becomes NULL. *)
Definition radix_trie_make_suffix (pos : radix_trie) (suffix : list char)
  (h : heap) : Z * radix_trie * heap :=
  let (ok, h1) := alloc h in
  if ok then (0, Node pos NULL (suffix ++ [0]), h1)
  else (1, pos, h1).

(** [radix_trie_split] on the node [*node = Node sib child substr].  The
    [realloc] that shrinks the old node may fail without any effect. *)
Definition radix_trie_split (sib child : radix_trie) (substr : list char)
  (diff : nat) (h : heap) : Z * radix_trie * heap :=
  let (ok, h1) := alloc h in
  if ok then
    let (_, h2) := alloc h1 in
    (0, Node sib (Node NULL child (skipn diff substr)) (firstn diff substr), h2)
  else (1, Node sib child substr, h1).

(** [radix_trie_try_split] on the node [**node = Node sib child substr].
    The result is the return value, the new [**node], the new [*str]
    ([None] for NULL) and the oracle.  When it returns 0 with a string, the
    caller's position has moved to the [child] field of the new [**node]. *)
Definition radix_trie_try_split (sib child : radix_trie) (substr : list char)
  (str : list char) (h : heap) : Z * radix_trie * option (list char) * heap :=
  let diff := radix_trie_diff substr str in
  if (diff <? length substr)%nat then
    if substr_at substr diff =? str_at str diff then
      (0, Node sib child substr, None, h)
    else
      let '(res, node, h1) := radix_trie_split sib child substr diff h in
      if res =? 0 then (0, node, Some (skipn diff str), h1)
      else (1, node, Some str, h1)
  else (0, Node sib child substr, Some (skipn diff str), h).

(** The [do ... while (str && !res)] loop of [radix_trie_insert], one
    iteration per unit of [fuel].  [root] is the list at the current
    position; the result carries the list to store back there. *)
Fixpoint insert_loop (fuel : nat) (root : radix_trie) (str : list char)
  (h : heap) : option (Z * radix_trie * heap) :=
  match fuel with
  | O => None
  | S fuel' =>
      let (passed, pos) := radix_trie_lsfind root (str_at str 0) in
      match pos with
      | NULL =>
          let '(res, pos', h1) := radix_trie_make_suffix pos str h in
          Some (res, relink passed pos', h1)
      | Node sib child substr =>
          if substr_at substr 0 >? str_at str 0 then
            let '(res, pos', h1) := radix_trie_make_suffix pos str h in
            Some (res, relink passed pos', h1)
          else
            match radix_trie_try_split sib child substr str h with
            | (res, Node sib1 child1 substr1, Some str1, h1) =>
                if res =? 0 then
                  match insert_loop fuel' child1 str1 h1 with
                  | Some (res2, child2, h2) =>
                      Some (res2, relink passed (Node sib1 child2 substr1), h2)
                  | None => None
                  end
                else Some (res, relink passed (Node sib1 child1 substr1), h1)
            | (res, node, _, h1) => Some (res, relink passed node, h1)
            end
      end
  end.

(** Number of levels of child lists. *)
Fixpoint depth (root : radix_trie) : nat :=
  match root with
  | NULL => O
  | Node sib child _ => Nat.max (depth sib) (S (depth child))
  end.

(** [radix_trie_insert]: return value, new [*root], rest of the oracle. *)
Definition radix_trie_insert (root : radix_trie) (str : list char) (h : heap)
  : Z * radix_trie * heap :=
  match insert_loop (S (length str + depth root)) root str h with
  | Some r => r
  | None => (0, root, h)
  end.

(** ** Lookup and prefix match *)

(** The [do ... while (diff == root->len)] loop of [radix_trie_lookup];
    [root] is the child list the loop is about to search (the [fake] node
    of the C code only supplies the first one). *)
Fixpoint lookup_loop (fuel : nat) (root : radix_trie) (str : list char)
  : option bool :=
  match fuel with
  | O => None
  | S fuel' =>
      match snd (radix_trie_lsfind root (str_at str 0)) with
      | NULL => Some false
      | Node _ child substr =>
          let diff := radix_trie_diff substr str in
          if (diff =? length substr)%nat then
            lookup_loop fuel' child (skipn diff str)
          else Some (substr_at substr diff =? str_at str diff)
      end
  end.

Definition radix_trie_lookup (root : radix_trie) (str : list char) : bool :=
  match lookup_loop (S (depth root)) root str with
  | Some b => b
  | None => false
  end.

(** The [do ... while ( *prefix)] loop of [radix_trie_match]. *)
Fixpoint match_loop (fuel : nat) (root : radix_trie) (prefix : list char)
  : option bool :=
  match fuel with
  | O => None
  | S fuel' =>
      match snd (radix_trie_lsfind root (str_at prefix 0)) with
      | NULL => Some false
      | Node _ child substr =>
          let diff := radix_trie_diff substr prefix in
          if (diff <? length substr)%nat then Some (str_at prefix diff =? 0)
          else
            let prefix' := skipn diff prefix in
            if str_at prefix' 0 =? 0 then Some true
            else match_loop fuel' child prefix'
      end
  end.

Definition radix_trie_match (root : radix_trie) (prefix : list char) : bool :=
  match match_loop (S (depth root)) root prefix with
  | Some b => b
  | None => false
  end.

(** ** Deletion *)

(** [radix_trie_fuse] on the value of [*parent]: return value, new
    [*parent], oracle. *)
Definition radix_trie_fuse (parent : radix_trie) (h : heap)
  : Z * radix_trie * heap :=
  match parent with
  | Node sib (Node NULL cchild csubstr) substr =>
      let (ok, h1) := alloc h in
      if ok then (0, Node sib cchild (substr ++ csubstr), h1)
      else (-1, parent, h1)
  | _ => (0, parent, h)
  end.

(** Where the loop of [radix_trie_delete] stands when it leaves a level:
    [Pending] when it has just freed a node of this list and
    [radix_trie_fuse(parent)] is to run on the node that owns the list;
    [Done res h] when the loop is over with [res]. *)
Inductive delete_state : Type :=
| Pending
| Done (res : Z) (h : heap).

(** The loop of [radix_trie_delete] from the list [root] downwards.  The
    result is the state, the list to store back and the [child] pointer
    held by the freed node (NULL when no node is freed). *)
Fixpoint delete_loop (fuel : nat) (root : radix_trie) (str : list char)
  (h : heap) : option (delete_state * radix_trie * radix_trie) :=
  match fuel with
  | O => None
  | S fuel' =>
      let (passed, pos) := radix_trie_lsfind root (str_at str 0) in
      match pos with
      | NULL => Some (Done 0 h, root, NULL)
      | Node sib child substr =>
          let diff := radix_trie_diff substr str in
          if (diff <? length substr)%nat then
            if substr_at substr diff =? str_at str diff then
              Some (Pending, relink passed sib, child)
            else Some (Done 0 h, root, NULL)
          else
            match delete_loop fuel' child (skipn diff str) h with
            | Some (Pending, child', lost) =>
                let '(res, parent, h1) :=
                  radix_trie_fuse (Node sib child' substr) h in
                Some (Done res h1, relink passed parent, lost)
            | Some (Done res h1, child', lost) =>
                Some (Done res h1, relink passed (Node sib child' substr), lost)
            | None => None
            end
      end
  end.

(** [radix_trie_delete] with the [child] pointer of the freed node as a
    fourth result.  At the top level [parent] points to a NULL pointer. *)
Definition radix_trie_delete_full (root : radix_trie) (str : list char)
  (h : heap) : Z * radix_trie * heap * radix_trie :=
  match delete_loop (S (depth root)) root str h with
  | Some (Pending, root', lost) =>
      let '(res, _, h1) := radix_trie_fuse NULL h in (res, root', h1, lost)
  | Some (Done res h1, root', lost) => (res, root', h1, lost)
  | None => (0, root, h, NULL)
  end.

(** [radix_trie_delete]: return value, new [*root], rest of the oracle. *)
Definition radix_trie_delete (root : radix_trie) (str : list char) (h : heap)
  : Z * radix_trie * heap :=
  fst (radix_trie_delete_full root str h).

(** ** Iteration *)

Definition RADIX_FORBUFSZ : nat := 1024.

(** The memory that starts at the buffer's base address, by index.  It
    extends past the buffer so that a write out of bounds would show. *)
Definition buffer := nat -> char.

Definition minzu (x y : nat) : nat := if (x <? y)%nat then x else y.

(** [memcpy(&buf[i], src, n)] *)
Definition memcpy (buf : buffer) (i : nat) (src : list char) (n : nat)
  : buffer :=
  fun j => if ((i <=? j) && (j <? i + n))%nat then nth (j - i) src 0 else buf j.

(** [buf[i] = c] *)
Definition store (buf : buffer) (i : nat) (c : char) : buffer :=
  fun j => if (j =? i)%nat then c else buf j.

(** The string a callback reads at [buf]: the bytes before the first
    terminator, looked for in the first [n] bytes. *)
Fixpoint read_from (buf : buffer) (i n : nat) : list char :=
  match n with
  | O => []
  | S n' => if buf i =? 0 then [] else buf i :: read_from buf (S i) n'
  end.

Definition c_string (buf : buffer) (n : nat) : list char := read_from buf O n.

(** The buffer [radix_trie_foreach] works on, [buf ? buf : sbuf], and its
    length, [buf ? len : sizeof sbuf]. *)
Definition buffer_of (ubuf : option buffer) (sbuf : buffer) : buffer :=
  match ubuf with Some b => b | None => sbuf end.

Definition buffer_len (ubuf : option buffer) (ulen : nat) : nat :=
  match ubuf with Some _ => ulen | None => RADIX_FORBUFSZ end.

Section Iteration.

(** The closure type behind [void *data]. *)
Variable D : Type.

(** [radix_trie_forfn_t]: the callback gets the string and the data, and
    gives its return value and the data as it leaves them. *)
Definition radix_trie_forfn_t := list char -> D -> Z * D.

(** [struct radix_iter], without the [jmp_buf]. *)
Record radix_iter : Type := {
  fn : radix_trie_forfn_t;
  data : D;
  buf : buffer;
  len : nat
}.

Definition set_buf (iter : radix_iter) (b : buffer) : radix_iter :=
  {| fn := fn iter; data := data iter; buf := b; len := len iter |}.

Definition set_data (iter : radix_iter) (d : D) : radix_iter :=
  {| fn := fn iter; data := d; buf := buf iter; len := len iter |}.

(** [radix_trie_iterate].  The result is [true] when the callback asked
    to stop ([longjmp]), and the context as the call leaves it. *)
Fixpoint radix_trie_iterate (root : radix_trie) (iter : radix_iter)
  (i : nat) : bool * radix_iter :=
  match root with
  | NULL => (false, iter)
  | Node sib child substr =>
      let space := if (i <? len iter)%nat then (len iter - i)%nat else O in
      let n := minzu space (length substr) in
      let iter1 := set_buf iter (memcpy (buf iter) i substr n) in
      let '(jumped, iter2) :=
        if substr_at substr (length substr - 1) =? 0 then
          let iter' := set_buf iter1 (store (buf iter1) (len iter - 1) 0) in
          let (r, d) := fn iter' (c_string (buf iter') (len iter')) (data iter') in
          (negb (r =? 0), set_data iter' d)
        else (false, iter1) in
      if jumped then (true, iter2)
      else
        let '(jumped, iter3) :=
          radix_trie_iterate child iter2 (i + length substr) in
        if jumped then (true, iter3)
        else radix_trie_iterate sib iter3 i
  end.

(** [radix_trie_foreach]: [ubuf] is the caller's buffer or [None] for
    NULL, [sbuf] the contents the stack buffer happens to have.  The
    result is the return value, the data and the buffer used. *)
Definition radix_trie_foreach (root : radix_trie) (f : radix_trie_forfn_t)
  (d : D) (ubuf : option buffer) (ulen : nat) (sbuf : buffer)
  : Z * D * buffer :=
  let iter := {| fn := f; data := d;
                 buf := buffer_of ubuf sbuf;
                 len := buffer_len ubuf ulen |} in
  if (len iter =? 0)%nat then (0, d, buf iter)
  else
    let (jumped, iter') := radix_trie_iterate root iter O in
    (if jumped then 1 else 0, data iter', buf iter').

End Iteration.

Arguments fn {D}.
Arguments data {D}.
Arguments buf {D}.
Arguments len {D}.
Arguments set_buf {D}.
Arguments set_data {D}.
Arguments radix_trie_iterate {D}.
Arguments radix_trie_foreach {D}.

(** A callback that records the strings it is given, in order, and never
    asks to stop. *)
Definition collect : radix_trie_forfn_t (list (list char)) :=
  fun str seen => (0, seen ++ [str]).

(** The strings [radix_trie_foreach] hands to a callback that lets it run
    to the end. *)
Definition visited (root : radix_trie) (ubuf : option buffer) (ulen : nat)
  (sbuf : buffer) : list (list char) :=
  snd (fst (radix_trie_foreach root collect [] ubuf ulen sbuf)).

(** ** The set a tree stands for, and the shape of its nodes *)

(** A node is terminal when its substring ends with the terminator (the
    test of [radix_trie_iterate]). *)
Definition terminal (substr : list char) : bool :=
  substr_at substr (length substr - 1) =? 0.

(** The strings below one node: its own string when it is terminal, and
    those of its children behind its substring. *)
Fixpoint strings (root : radix_trie) : list (list char) :=
  match root with
  | NULL => []
  | Node sib child substr =>
      ((if terminal substr then [removelast substr] else [])
       ++ map (app substr) (strings child))
      ++ strings sib
  end.

Definition own (child : radix_trie) (substr : list char) : list (list char) :=
  (if terminal substr then [removelast substr] else [])
  ++ map (app substr) (strings child).

Definition nonzero (c : char) : Prop := c <> 0.

(** A string the library can be given: no terminator inside.  The value
    of a byte may be negative, as it is for the bytes from 0x80 on where
    [char] is signed. *)
Definition c_str (str : list char) : Prop := Forall nonzero str.

(** The first byte of the head of a list is above [c] / not below [c]. *)
Definition head_gt (c : char) (t : radix_trie) : Prop :=
  match t with
  | NULL => True
  | Node _ _ substr => c < substr_at substr 0
  end.

Definition head_ge (c : char) (t : radix_trie) : Prop :=
  match t with
  | NULL => True
  | Node _ _ substr => c <= substr_at substr 0
  end.

(** The invariants every operation keeps, whatever the allocator does:
    substrings are not empty, the terminator is only ever the last byte
    of a substring, a terminal node has no children, and the first bytes
    of siblings go strictly up. *)
Inductive well_formed : radix_trie -> Prop :=
| wf_NULL : well_formed NULL
| wf_inner sib child substr :
    substr <> [] -> c_str substr ->
    head_gt (substr_at substr 0) sib ->
    well_formed sib -> well_formed child ->
    well_formed (Node sib child substr)
| wf_leaf sib body :
    c_str body ->
    head_gt (substr_at (body ++ [0]) 0) sib ->
    well_formed sib ->
    well_formed (Node sib NULL (body ++ [0])).

Fixpoint count_sibs (t : radix_trie) : nat :=
  match t with
  | NULL => O
  | Node sib _ _ => S (count_sibs sib)
  end.

(** Canonical (compressed) form: every node that is not terminal has at
    least two children. *)
Fixpoint canonical (t : radix_trie) : bool :=
  match t with
  | NULL => true
  | Node sib child substr =>
      (terminal substr || (2 <=? count_sibs child)%nat)
      && canonical sib && canonical child
  end.

(** Some node that is not terminal has exactly one child, with which it
    could be merged. *)
Fixpoint has_single_child (t : radix_trie) : bool :=
  match t with
  | NULL => false
  | Node sib child substr =>
      (negb (terminal substr) && (count_sibs child =? 1)%nat)
      || has_single_child sib || has_single_child child
  end.


(** Lexicographic order on strings by [char] value. *)
Inductive lex_lt : list char -> list char -> Prop :=
| lex_nil b y : lex_lt [] (b :: y)
| lex_head a b x y : a < b -> lex_lt (a :: x) (b :: y)
| lex_tail a x y : lex_lt x y -> lex_lt (a :: x) (a :: y).

(** The order in which the code keeps the members: nul-terminated strings
    compared by [char] value, the terminator included. *)
Definition char_lt (x y : list char) : Prop := lex_lt (x ++ [0]) (y ++ [0]).

(** The byte that holds a [char] value, as a number from 0 to 255, and
    the order of strings by the values of their bytes. *)
Definition raw_byte (c : char) : Z := c mod 256.

Definition raw_lt (x y : list char) : Prop :=
  lex_lt (map raw_byte x) (map raw_byte y).

(** A [char] value that is its own byte value: every byte other than the
    terminator where [char] is unsigned, the bytes below 0x80 where it is
    signed. *)
Definition plain (c : char) : Prop := 0 < c < 256.

(** [p] is a prefix of [s]. *)
Definition starts_with (s p : list char) : Prop := exists t, s = p ++ t.

(** ** Sequences of calls *)

(** Trees reached from the empty tree by calls of [radix_trie_insert] and
    [radix_trie_delete], whatever the allocator does. *)
Inductive reachable : radix_trie -> Prop :=
| reach_empty : reachable NULL
| reach_insert root str h :
    reachable root -> c_str str ->
    reachable (snd (fst (radix_trie_insert root str h)))
| reach_delete root str h :
    reachable root -> c_str str ->
    reachable (snd (fst (radix_trie_delete root str h))).

(** The same, when every call returned 0: no insertion failed and no
    attempt to fuse failed. *)
Inductive reachable_ok : radix_trie -> Prop :=
| reach_ok_empty : reachable_ok NULL
| reach_ok_insert root str h :
    reachable_ok root -> c_str str ->
    fst (fst (radix_trie_insert root str h)) = 0 ->
    reachable_ok (snd (fst (radix_trie_insert root str h)))
| reach_ok_delete root str h :
    reachable_ok root -> c_str str ->
    fst (fst (radix_trie_delete root str h)) = 0 ->
    reachable_ok (snd (fst (radix_trie_delete root str h))).

(** Insert the strings of [l] in turn; [None] as soon as a call fails. *)
Fixpoint insert_all (l : list (list char)) (root : radix_trie) (h : heap)
  : option (radix_trie * heap) :=
  match l with
  | [] => Some (root, h)
  | str :: l' =>
      let '(res, root', h') := radix_trie_insert root str h in
      if res =? 0 then insert_all l' root' h' else None
  end.

(** What a callback [f] does when given the strings of [l] in turn until
    it asks to stop: the return value of [radix_trie_foreach] and the
    data. *)
Fixpoint visit_in_turn {D : Type} (f : radix_trie_forfn_t D)
  (l : list (list char)) (d : D) : Z * D :=
  match l with
  | [] => (0, d)
  | str :: l' =>
      let (r, d') := f str d in
      if r =? 0 then visit_in_turn f l' d' else (1, d')
  end.

(** ** The operations on well-formed trees, case by case *)

(** The shapes a substring may have: no terminator at all, or exactly one,
    as its last byte. *)
Definition substr_ok (substr : list char) : Prop :=
  (substr <> [] /\ c_str substr) \/ (exists body, substr = body ++ [0] /\ c_str body).

(** What [radix_trie_insert] does on a well-formed list [root] with the
    string [str], as a derivation that follows the iterations of its loop. *)
Inductive insertion : radix_trie -> list Z -> heap -> Z * radix_trie * heap -> Prop :=
| ins_suffix root str h passed pos res pos' h1 :
    (* no sibling starts with the next byte: a terminal node is linked in *)
    radix_trie_lsfind root (str_at str 0) = (passed, pos) ->
    head_gt (str_at str 0) pos ->
    radix_trie_make_suffix pos str h = (res, pos', h1) ->
    insertion root str h (res, relink passed pos', h1)
| ins_matched root str h passed sib :
    (* the string is a member already *)
    radix_trie_lsfind root (str_at str 0) = (passed, Node sib NULL (str ++ [0])) ->
    insertion root str h (0, root, h)
| ins_split_failed root p q t h h1 passed sib child :
    (* the prefix node of a split could not be allocated *)
    radix_trie_lsfind root (str_at (p ++ t) 0) = (passed, Node sib child (p ++ q)) ->
    p <> [] -> c_str p -> q <> [] -> substr_at q 0 <> str_at t 0 ->
    alloc h = (false, h1) ->
    insertion root (p ++ t) h (1, root, h1)
| ins_split root p q t h h1 ok h2 passed sib child res child' h3 :
    (* the node is split after [p]; the loop goes on in the child list of
       the prefix node, which holds the rest of the old node *)
    radix_trie_lsfind root (str_at (p ++ t) 0) = (passed, Node sib child (p ++ q)) ->
    p <> [] -> c_str p -> q <> [] -> substr_at q 0 <> str_at t 0 ->
    alloc h = (true, h1) -> alloc h1 = (ok, h2) ->
    insertion (Node NULL child q) t h2 (res, child', h3) ->
    insertion root (p ++ t) h (res, relink passed (Node sib child' p), h3)
| ins_descend root substr t h passed sib child res child' h1 :
    (* the whole substring matched: the loop goes on in the child list *)
    radix_trie_lsfind root (str_at (substr ++ t) 0) = (passed, Node sib child substr) ->
    substr <> [] -> c_str substr ->
    insertion child t h (res, child', h1) ->
    insertion root (substr ++ t) h (res, relink passed (Node sib child' substr), h1).

(** What the loop of [radix_trie_delete] does on a well-formed list
    [root] with the string [str]. *)
Inductive deletion : radix_trie -> list Z -> heap ->
                     delete_state * radix_trie * radix_trie -> Prop :=
| del_absent root str h :
    (* the walk ends on a missing or a different node *)
    ~ In str (strings root) ->
    deletion root str h (Done 0 h, root, NULL)
| del_here root str h passed sib :
    (* the node of the string is in this list: it is unlinked and freed *)
    radix_trie_lsfind root (str_at str 0) = (passed, Node sib NULL (str ++ [0])) ->
    deletion root str h (Pending, relink passed sib, NULL)
| del_parent root substr t h passed sib child child' lost res parent h1 :
    (* the node was freed in the child list of this node, which is [parent] *)
    radix_trie_lsfind root (str_at (substr ++ t) 0) = (passed, Node sib child substr) ->
    substr <> [] -> c_str substr ->
    deletion child t h (Pending, child', lost) ->
    radix_trie_fuse (Node sib child' substr) h = (res, parent, h1) ->
    deletion root (substr ++ t) h (Done res h1, relink passed parent, lost)
| del_above root substr t h passed sib child child' lost res h1 :
    (* the loop ended further down *)
    radix_trie_lsfind root (str_at (substr ++ t) 0) = (passed, Node sib child substr) ->
    substr <> [] -> c_str substr ->
    deletion child t h (Done res h1, child', lost) ->
    deletion root (substr ++ t) h (Done res h1, relink passed (Node sib child' substr), lost).

(** The first [n] bytes of the buffer [b] that lie under the string [p]
    hold the bytes of [p]. *)
Definition agrees (b : buffer) (p : list Z) (n : nat) : Prop :=
  forall j, (j < length p)%nat -> (j < n)%nat -> b j = nth j p 0.

(** A callback that behaves as [f] and also records each call: the string
    it was given and the value it returned. *)
Definition traced {D : Type} (f : radix_trie_forfn_t D)
  : radix_trie_forfn_t (D * list (list Z * Z)) :=
  fun str st =>
    let (r, d') := f str (fst st) in
    (r, (d', snd st ++ [(str, r)])).

(** [radix_trie_match] with the empty prefix looks for the terminator in
    the top list and so passes by the nodes whose first byte is negative:
    the members it can meet are the empty string and those that start with
    a byte that is not negative.  Every other prefix meets every member. *)
Definition seen_by (p s : list Z) : Prop := p = [] -> 0 <= str_at s 0.


(** [split_left root root']: [root'] is [root] but for one node with the
    substring [p ++ q], in whose place [root'] has what [radix_trie_split]
    makes of it: a node with the substring [p] and the siblings of the
    old node, whose only child has the substring [q] and the children of
    the old node. *)
Inductive split_left : radix_trie -> radix_trie -> Prop :=
| sl_here passed sib child p q :
    p <> [] -> c_str p -> q <> [] ->
    split_left (relink passed (Node sib child (p ++ q)))
               (relink passed (Node sib (Node NULL child q) p))
| sl_below passed sib child child' substr :
    substr <> [] -> c_str substr ->
    split_left child child' ->
    split_left (relink passed (Node sib child substr))
               (relink passed (Node sib child' substr)).

(** * Proofs *)

(** ** Strings and [radix_trie_diff] *)

Lemma c_str_at_zero str i : c_str str -> str_at str i = 0 -> (length str <= i)%nat.
Proof.
  unfold str_at. revert i. induction str as [|a str IH]; intros i Hs Hz; simpl.
  - lia.
  - inversion Hs; subst. destruct i as [|i]; simpl in Hz.
    + unfold nonzero in *. lia.
    + apply IH in Hz; auto. lia.
Qed.

Lemma c_str_app a b : c_str (a ++ b) <-> c_str a /\ c_str b.
Proof. unfold c_str. apply Forall_app. Qed.

Lemma c_str_firstn n s : c_str s -> c_str (firstn n s).
Proof.
  intros H. rewrite <- (firstn_skipn n s) in H. apply c_str_app in H. tauto.
Qed.

Lemma c_str_skipn n s : c_str s -> c_str (skipn n s).
Proof.
  intros H. rewrite <- (firstn_skipn n s) in H. apply c_str_app in H. tauto.
Qed.

Lemma str_at_skipn n s i : str_at (skipn n s) i = str_at s (n + i).
Proof.
  unfold str_at. revert s. induction n as [|n IH]; intros s; simpl; auto.
  destruct s; simpl; auto. destruct i; reflexivity.
Qed.

Lemma diff_le_substr substr str :
  (radix_trie_diff substr str <= length substr)%nat.
Proof.
  revert str. induction substr as [|a substr IH]; intros [|b str]; simpl; try lia.
  destruct ((a =? b) && negb (b =? 0)); simpl; [specialize (IH str)|]; lia.
Qed.

Lemma diff_le_str substr str :
  (radix_trie_diff substr str <= length str)%nat.
Proof.
  revert str. induction substr as [|a substr IH]; intros [|b str]; simpl; try lia.
  destruct ((a =? b) && negb (b =? 0)); simpl; [specialize (IH str)|]; lia.
Qed.

Lemma diff_firstn substr str :
  firstn (radix_trie_diff substr str) substr =
  firstn (radix_trie_diff substr str) str.
Proof.
  revert str. induction substr as [|a substr IH]; intros [|b str]; simpl; auto.
  destruct (Z.eqb_spec a b) as [->|]; simpl; auto.
  destruct (b =? 0); simpl; auto. f_equal. apply IH.
Qed.

(** Where the loop stops short of [len] on equal bytes, the byte of [str]
    is its terminator. *)
Lemma diff_stop substr str :
  (radix_trie_diff substr str < length substr)%nat ->
  substr_at substr (radix_trie_diff substr str) =
  str_at str (radix_trie_diff substr str) ->
  str_at str (radix_trie_diff substr str) = 0.
Proof.
  unfold substr_at, str_at.
  revert str. induction substr as [|a substr IH]; intros [|b str]; simpl; auto;
    try (intros; exfalso; lia).
  - destruct (Z.eqb_spec a b) as [->|Hne]; simpl.
    + destruct (Z.eqb_spec b 0) as [->|Hb]; simpl; auto.
      intros Hlt Heq. apply IH; auto. lia.
    + intros _ Heq. contradiction.
Qed.

(** The three outcomes of comparing a string with a node. *)

(** The whole substring matched: it is a prefix of the string, and holds
    no terminator. *)
Lemma diff_full substr str :
  c_str str -> radix_trie_diff substr str = length substr ->
  str = substr ++ skipn (length substr) str /\ c_str substr.
Proof.
  intros Hs Hd. pose proof (diff_firstn substr str) as Hf.
  rewrite Hd in Hf. rewrite firstn_all in Hf. split.
  - rewrite Hf at 1. symmetry. apply firstn_skipn.
  - rewrite Hf. apply c_str_firstn. assumption.
Qed.

Lemma c_str_no_zero s i : c_str s -> (i < length s)%nat -> nth i s 0 <> 0.
Proof.
  intros Hs Hi Hz. apply (c_str_at_zero s i) in Hs; [lia | exact Hz].
Qed.

(** The comparison stopped inside the substring on equal bytes: the node
    holds exactly the string and its terminator. *)
Lemma diff_matched substr str :
  substr_ok substr -> c_str str ->
  (radix_trie_diff substr str < length substr)%nat ->
  substr_at substr (radix_trie_diff substr str) =
  str_at str (radix_trie_diff substr str) ->
  substr = str ++ [0].
Proof.
  intros Hok Hs Hlt Heq.
  pose proof (diff_stop _ _ Hlt Heq) as Hz.
  pose proof (c_str_at_zero _ _ Hs Hz) as Hlen.
  pose proof (diff_le_str substr str) as Hle.
  pose proof (diff_firstn substr str) as Hf.
  assert (Hd : radix_trie_diff substr str = length str) by lia.
  rewrite Hz in Heq. rewrite Hd in *. rewrite firstn_all in Hf.
  destruct Hok as [[_ Hpos] | [body [-> Hbody]]].
  - exfalso. apply (c_str_no_zero substr (length str) Hpos); [lia | exact Heq].
  - rewrite length_app in Hlt. simpl in Hlt.
    destruct (Nat.eq_dec (length str) (length body)) as [E|E].
    + rewrite E in Hf. rewrite firstn_app, firstn_all, Nat.sub_diag in Hf.
      simpl in Hf. rewrite app_nil_r in Hf. rewrite Hf. reflexivity.
    + exfalso. unfold substr_at in Heq. rewrite app_nth1 in Heq by lia.
      apply (c_str_no_zero body (length str) Hbody); [lia | exact Heq].
Qed.

(** The comparison stopped inside the substring on different bytes: the
    node and the string part after a common prefix. *)
Lemma diff_mismatch substr str :
  let d := radix_trie_diff substr str in
  (d < length substr)%nat ->
  substr_at substr d <> str_at str d ->
  substr = firstn d str ++ skipn d substr /\
  str = firstn d str ++ skipn d str /\
  skipn d substr <> [] /\
  substr_at (skipn d substr) 0 <> str_at (skipn d str) 0.
Proof.
  intros d Hlt Hne. subst d. repeat split.
  - rewrite <- diff_firstn. symmetry. apply firstn_skipn.
  - symmetry. apply firstn_skipn.
  - intros E. apply (f_equal (@length _)) in E. rewrite length_skipn in E.
    simpl in E. lia.
  - unfold substr_at in *. rewrite !str_at_skipn.
    fold (str_at (skipn (radix_trie_diff substr str) substr) 0).
    rewrite str_at_skipn. rewrite Nat.add_0_r. exact Hne.
Qed.

(** ** Positions in sibling lists *)

Lemma lsfind_spec head chr passed pos :
  radix_trie_lsfind head chr = (passed, pos) ->
  head = relink passed pos /\
  Forall (fun p => substr_at (snd p) 0 < chr) passed /\
  head_ge chr pos /\
  (depth pos <= depth head)%nat.
Proof.
  revert passed pos. induction head as [|sib IH child _ substr]; simpl;
    intros passed pos H.
  - inversion H; subst. simpl. auto.
  - destruct (Z.ltb_spec (substr_at substr 0) chr) as [Hlt|Hge].
    + destruct (radix_trie_lsfind sib chr) as [passed' pos'].
      inversion H; subst. destruct (IH _ _ eq_refl) as (E & Hp & Hg & Hd).
      simpl. rewrite <- E. repeat split; auto. lia.
    + inversion H; subst. simpl. repeat split; auto.
Qed.

Lemma terminal_c_str substr : substr <> [] -> c_str substr -> terminal substr = false.
Proof.
  intros Hne Hs. unfold terminal, substr_at. apply Z.eqb_neq.
  apply c_str_no_zero; auto. destruct substr; [congruence | simpl; lia].
Qed.

Lemma terminal_leaf body : terminal (body ++ [0]) = true.
Proof.
  unfold terminal, substr_at. rewrite length_app. simpl.
  rewrite app_nth2 by lia. replace (length body + 1 - 1 - length body)%nat with O by lia.
  reflexivity.
Qed.

Lemma wf_substr_ok sib child substr :
  well_formed (Node sib child substr) -> substr_ok substr.
Proof.
  intros H. inversion H; subst; [left | right]; eauto.
Qed.

Lemma wf_node_cases sib child substr :
  well_formed (Node sib child substr) ->
  (substr <> [] /\ c_str substr) \/
  (exists body, substr = body ++ [0] /\ c_str body /\ child = NULL).
Proof.
  intros H. inversion H; subst; [left | right]; eauto.
Qed.

Lemma c_str_not_leaf body : ~ c_str (body ++ [0]).
Proof.
  intros H. apply c_str_app in H. destruct H as [_ H].
  inversion H; subst. unfold nonzero in *. lia.
Qed.

Lemma diff_self substr t : c_str substr ->
  radix_trie_diff substr (substr ++ t) = length substr.
Proof.
  induction substr as [|a substr IH]; simpl; auto. intros H.
  inversion H; subst. rewrite Z.eqb_refl.
  destruct (Z.eqb_spec a 0); [unfold nonzero in *; lia|].
  simpl. f_equal. auto.
Qed.

Lemma diff_leaf str : c_str str ->
  radix_trie_diff (str ++ [0]) str = length str.
Proof.
  induction str as [|a str IH]; simpl; auto. intros H.
  inversion H; subst. rewrite Z.eqb_refl.
  destruct (Z.eqb_spec a 0); [unfold nonzero in *; lia|].
  simpl. f_equal. auto.
Qed.

Lemma wf_sib sib child substr :
  well_formed (Node sib child substr) -> well_formed sib.
Proof. intros H. inversion H; auto. Qed.

Lemma wf_child sib child substr :
  well_formed (Node sib child substr) -> well_formed child.
Proof. intros H. inversion H; auto. constructor. Qed.

Lemma wf_head_gt sib child substr :
  well_formed (Node sib child substr) -> head_gt (substr_at substr 0) sib.
Proof. intros H. inversion H; auto. Qed.

(** A node keeps its place among its siblings when the rest of the node
    changes but its first byte does not. *)
Lemma wf_replace_sib sib sib' child substr :
  well_formed (Node sib child substr) -> well_formed sib' ->
  head_gt (substr_at substr 0) sib' ->
  well_formed (Node sib' child substr).
Proof.
  intros H Hs Hg. inversion H; subst; [apply wf_inner | apply wf_leaf]; auto.
Qed.

Lemma wf_relink_inv passed t : well_formed (relink passed t) -> well_formed t.
Proof.
  induction passed as [|[c s] passed IH]; simpl; auto.
  intros H. apply IH. eapply wf_sib; eauto.
Qed.

Lemma head_gt_relink c passed t t' :
  head_gt c (relink passed t) ->
  (passed = [] -> head_gt c t') ->
  head_gt c (relink passed t').
Proof.
  destruct passed as [|[ch s] passed]; simpl; auto.
Qed.

Lemma head_ge_gt c c' t : c < c' -> head_ge c' t -> head_gt c t.
Proof. destruct t; simpl; auto. lia. Qed.

Lemma wf_relink passed t t' chr :
  well_formed (relink passed t) ->
  Forall (fun p => substr_at (snd p) 0 < chr) passed ->
  well_formed t' -> head_ge chr t' ->
  well_formed (relink passed t').
Proof.
  induction passed as [|[c s] passed IH]; simpl; intros H Hp Ht' Hg; auto.
  inversion Hp as [|? ? Hlt Hp']; subst. simpl in Hlt.
  eapply wf_replace_sib; eauto.
  - apply IH; auto. eapply wf_sib; eauto.
  - apply head_gt_relink with (t := t).
    + eapply wf_head_gt; eauto.
    + intros _. eapply head_ge_gt; eauto.
Qed.

(** ** Members *)

Lemma strings_node sib child substr :
  strings (Node sib child substr) = own child substr ++ strings sib.
Proof. reflexivity. Qed.

Lemma strings_relink passed t :
  strings (relink passed t) =
  flat_map (fun p => own (fst p) (snd p)) passed ++ strings t.
Proof.
  induction passed as [|[c s] passed IH]; simpl; auto.
  rewrite IH. unfold own. rewrite <- !app_assoc. reflexivity.
Qed.

Lemma own_inner child substr :
  substr <> [] -> c_str substr ->
  own child substr = map (app substr) (strings child).
Proof. intros. unfold own. rewrite terminal_c_str; auto. Qed.

Lemma own_leaf body : own NULL (body ++ [0]) = [body].
Proof. unfold own. rewrite terminal_leaf, removelast_last. reflexivity. Qed.

Lemma own_first sib child substr s :
  well_formed (Node sib child substr) -> In s (own child substr) ->
  str_at s 0 = substr_at substr 0.
Proof.
  intros H Hin. inversion H as [|? ? ? Hne Hs|? body Hs]; subst.
  - rewrite own_inner in Hin by auto. apply in_map_iff in Hin.
    destruct Hin as (t & <- & _). destruct substr; [congruence | reflexivity].
  - rewrite own_leaf in Hin. destruct Hin as [<-|[]].
    destruct body; reflexivity.
Qed.

Lemma strings_head_gt t : well_formed t ->
  forall c s, head_gt c t -> In s (strings t) -> c < str_at s 0.
Proof.
  induction t as [|sib IHs child _ substr]; simpl; intros H c s Hg Hin; [tauto|].
  apply in_app_or in Hin. destruct Hin as [Hin|Hin].
  - rewrite (own_first sib child substr s); auto.
  - apply Z.lt_trans with (substr_at substr 0); auto.
    apply IHs; auto; [eapply wf_sib | eapply wf_head_gt]; eauto.
Qed.

Lemma passed_strings_lt passed t chr s :
  well_formed (relink passed t) ->
  Forall (fun p => substr_at (snd p) 0 < chr) passed ->
  In s (flat_map (fun p => own (fst p) (snd p)) passed) ->
  str_at s 0 < chr.
Proof.
  induction passed as [|[c sub] passed IH]; simpl; intros H Hp Hin; [tauto|].
  inversion Hp; subst. simpl in *. apply in_app_or in Hin. destruct Hin as [Hin|Hin].
  - erewrite own_first; eauto.
  - apply IH; auto. eapply wf_sib; eauto.
Qed.

Lemma strings_c_str t : well_formed t -> forall s, In s (strings t) -> c_str s.
Proof.
  intros H. induction H as [|sib child substr Hne Hs Hg _ IHs _ IHc
                            |sib body Hs Hg _ IHs]; intros s Hin.
  - destruct Hin.
  - rewrite strings_node, own_inner in Hin by auto.
    apply in_app_or in Hin. destruct Hin as [Hin|Hin]; auto.
    apply in_map_iff in Hin. destruct Hin as (t & <- & Ht).
    apply c_str_app. auto.
  - rewrite strings_node, own_leaf in Hin.
    destruct Hin as [<-|Hin]; auto.
Qed.

(** Only the node found by [radix_trie_lsfind] can hold a string that
    starts with the byte looked for. *)
Lemma strings_lsfind root s passed pos :
  well_formed root ->
  radix_trie_lsfind root (str_at s 0) = (passed, pos) ->
  (In s (strings root) <->
   match pos with
   | NULL => False
   | Node _ child substr => In s (own child substr)
   end).
Proof.
  intros Hwf Hls. destruct (lsfind_spec _ _ _ _ Hls) as (E & Hp & Hg & _).
  subst root. rewrite strings_relink. rewrite in_app_iff. split.
  - intros [Hin|Hin].
    + apply passed_strings_lt with (chr := str_at s 0) (t := pos) in Hin; auto. lia.
    + destruct pos as [|sib child substr]; simpl in *; auto.
      apply in_app_or in Hin. destruct Hin as [Hin|Hin]; auto.
      apply wf_relink_inv in Hwf.
      apply strings_head_gt with (c := substr_at substr 0) in Hin.
      * lia.
      * eapply wf_sib; eauto.
      * eapply wf_head_gt; eauto.
  - destruct pos as [|sib child substr]; [tauto|]. intros Hin. right.
    simpl. apply in_or_app. left. exact Hin.
Qed.

(** ** Lookup *)

Lemma lookup_loop_correct fuel : forall root str,
  (depth root < fuel)%nat -> well_formed root -> c_str str ->
  exists b, lookup_loop fuel root str = Some b /\
            (b = true <-> In str (strings root)).
Proof.
  induction fuel as [|fuel IH]; intros root str Hd Hwf Hs; [lia|].
  simpl. destruct (radix_trie_lsfind root (str_at str 0)) as [passed pos] eqn:Hls.
  pose proof (strings_lsfind root str passed pos Hwf Hls) as Hmem.
  destruct (lsfind_spec _ _ _ _ Hls) as (E & _ & _ & Hdp).
  assert (Hwp : well_formed pos) by (subst root; eapply wf_relink_inv; eauto).
  simpl. destruct pos as [|sib child substr].
  - exists false. split; auto. split; [discriminate | tauto].
  - simpl in Hdp.
    match goal with |- exists b, ?X = Some b /\ _ =>
      enough (exists b, X = Some b /\ (b = true <-> In str (own child substr)))
        as (b & Hb & Hiff) by (exists b; split; [exact Hb | tauto]) end.
    clear Hmem.
    destruct (Nat.eqb_spec (radix_trie_diff substr str) (length substr)) as [Hfull|Hnot].
    + destruct (diff_full _ _ Hs Hfull) as [Estr Hsub].
      assert (Hne : substr <> []).
      { inversion Hwp; subst; auto. intros E'. destruct body; discriminate. }
      rewrite Hfull.
      destruct (IH child (skipn (length substr) str)) as (b & Hb & Hiff).
      * lia.
      * eapply wf_child; eauto.
      * apply c_str_skipn; auto.
      * exists b. split; auto. rewrite Hiff. rewrite own_inner by auto.
        rewrite in_map_iff. split.
        -- intros Hin. eexists. split; [|exact Hin]. auto.
        -- intros (t & Et & Hin). rewrite Estr in Et. apply app_inv_head in Et.
           subst t. exact Hin.
    + eexists. split; [reflexivity|].
      pose proof (diff_le_substr substr str) as Hle.
      assert (Hlt : (radix_trie_diff substr str < length substr)%nat) by lia.
      rewrite Z.eqb_eq. split.
      * intros Heq. apply diff_matched in Heq; auto.
        2: eapply wf_substr_ok; eauto.
        subst substr.
        destruct (wf_node_cases _ _ _ Hwp) as [[_ Hs']|(body & Eb & _ & ->)].
        -- exfalso. eapply c_str_not_leaf; eauto.
        -- rewrite own_leaf. left. reflexivity.
      * intros Hin.
        destruct (wf_node_cases _ _ _ Hwp) as [[Hne' Hs']|(body & -> & Hs' & ->)].
        -- rewrite own_inner in Hin by auto. apply in_map_iff in Hin.
           destruct Hin as (t & <- & _). exfalso. apply Hnot.
           apply diff_self. exact Hs'.
        -- rewrite own_leaf in Hin. destruct Hin as [->|[]].
           rewrite diff_leaf by auto. unfold substr_at, str_at.
           rewrite app_nth2, Nat.sub_diag by lia. simpl.
           symmetry. apply nth_overflow. lia.
Qed.

(** The loops of [radix_trie_lookup] and [radix_trie_match] end within
    [depth root + 1] iterations, for any tree at all. *)
Lemma lookup_loop_total fuel : forall root str,
  (depth root < fuel)%nat -> exists b, lookup_loop fuel root str = Some b.
Proof.
  induction fuel as [|fuel IH]; intros root str Hf; [lia|].
  cbn [lookup_loop].
  destruct (radix_trie_lsfind root (str_at str 0)) as [passed pos] eqn:Hls.
  destruct (lsfind_spec _ _ _ _ Hls) as (_ & _ & _ & Hdp).
  cbn [snd]. destruct pos as [|sib child substr]; [eauto|].
  destruct (radix_trie_diff substr str =? length substr)%nat; [|eauto].
  apply IH. simpl in Hdp. lia.
Qed.

Lemma match_loop_total fuel : forall root prefix,
  (depth root < fuel)%nat -> exists b, match_loop fuel root prefix = Some b.
Proof.
  induction fuel as [|fuel IH]; intros root prefix Hf; [lia|].
  cbn [match_loop].
  destruct (radix_trie_lsfind root (str_at prefix 0)) as [passed pos] eqn:Hls.
  destruct (lsfind_spec _ _ _ _ Hls) as (_ & _ & _ & Hdp).
  cbn [snd]. destruct pos as [|sib child substr]; [eauto|].
  destruct (radix_trie_diff substr prefix <? length substr)%nat; [eauto|].
  destruct (str_at _ 0 =? 0); [eauto|].
  apply IH. simpl in Hdp. lia.
Qed.

Lemma lookup_correct root str :
  well_formed root -> c_str str ->
  (radix_trie_lookup root str = true <-> In str (strings root)).
Proof.
  intros Hwf Hs. unfold radix_trie_lookup.
  destruct (lookup_loop_correct (S (depth root)) root str) as (b & -> & Hiff); auto.
Qed.

(** ** Insertion, case by case *)

(** The rest of a node after a split is a well-formed list of its own. *)
Lemma wf_split_rest sib child p q :
  well_formed (Node sib child (p ++ q)) -> q <> [] ->
  well_formed (Node NULL child q).
Proof.
  intros H Hq. destruct (wf_node_cases _ _ _ H) as [[_ Hs]|(body & E & Hs & ->)].
  - apply c_str_app in Hs. apply wf_inner; simpl; try tauto.
    + constructor.
    + eapply wf_child; eauto.
  - destruct (exists_last Hq) as (q' & c & ->).
    rewrite app_assoc in E. apply app_inj_tail in E. destruct E as [<- ->].
    apply c_str_app in Hs. apply wf_leaf; simpl; try tauto. constructor.
Qed.

Lemma substr_at_app_l (p q : list Z) : p <> [] -> substr_at (p ++ q) 0 = substr_at p 0.
Proof. destruct p; [congruence | reflexivity]. Qed.

(** The prefix node of a split takes the place of the old node. *)
Lemma wf_split_prefix sib child p q child' :
  well_formed (Node sib child (p ++ q)) -> p <> [] -> c_str p ->
  well_formed child' ->
  well_formed (Node sib child' p).
Proof.
  intros H Hp Hs Hc. apply wf_inner; auto.
  - rewrite <- (substr_at_app_l p q) by auto. eapply wf_head_gt; eauto.
  - eapply wf_sib; eauto.
Qed.

Lemma insert_loop_insertion fuel : forall root str h r,
  well_formed root -> c_str str ->
  insert_loop fuel root str h = Some r ->
  insertion root str h r.
Proof.
  induction fuel as [|fuel IH]; intros root str h r Hwf Hs Hr; [discriminate|].
  simpl in Hr.
  destruct (radix_trie_lsfind root (str_at str 0)) as [passed pos] eqn:Hls.
  destruct (lsfind_spec _ _ _ _ Hls) as (E & Hp & Hge & _).
  assert (Hwp : well_formed pos) by (subst root; eapply wf_relink_inv; eauto).
  destruct pos as [|sib child substr].
  - destruct (radix_trie_make_suffix NULL str h) as [[res pos'] h1] eqn:Hm.
    inversion Hr; subst r. eapply ins_suffix; eauto.
  - destruct (Z.gtb_spec (substr_at substr 0) (str_at str 0)) as [Hgt|Hle].
    + destruct (radix_trie_make_suffix _ str h) as [[res pos'] h1] eqn:Hm.
      inversion Hr; subst r. eapply ins_suffix; eauto.
    + simpl in Hge. assert (Hhd : substr_at substr 0 = str_at str 0) by lia.
      clear Hge Hle. unfold radix_trie_try_split in Hr.
      pose proof (diff_le_substr substr str) as Hdle.
      destruct (Nat.ltb_spec (radix_trie_diff substr str) (length substr)) as [Hlt|Hfull].
      * destruct (Z.eqb_spec (substr_at substr (radix_trie_diff substr str))
                             (str_at str (radix_trie_diff substr str))) as [Heq|Hne].
        -- inversion Hr; subst r. rewrite <- E.
           apply diff_matched in Heq; auto; [|eapply wf_substr_ok; eauto].
           subst substr.
           destruct (wf_node_cases _ _ _ Hwp) as [[_ Hs']|(body & _ & _ & ->)].
           ++ exfalso. eapply c_str_not_leaf; eauto.
           ++ eapply ins_matched; eauto.
        -- destruct (diff_mismatch substr str Hlt Hne) as (Esub & Estr & Hq & Hqt).
           assert (Hd1 : (1 <= radix_trie_diff substr str)%nat).
           { destruct (radix_trie_diff substr str) eqn:Hd0; [|lia].
             exfalso. apply Hne. exact Hhd. }
           set (d := radix_trie_diff substr str) in *.
           assert (Hpne : firstn d str <> []).
           { intros E0. apply (f_equal (@length _)) in E0.
             rewrite length_firstn in E0. simpl in E0.
             pose proof (diff_le_str substr str). fold d in H. lia. }
           assert (Hpf : firstn d substr = firstn d str) by apply diff_firstn.
           unfold radix_trie_split in Hr.
           destruct (alloc h) as [[|] h1] eqn:Ha.
           ++ destruct (alloc h1) as [ok h2] eqn:Ha2. simpl in Hr.
              destruct (insert_loop fuel _ (skipn d str) h2)
                as [[[res2 child2] h3]|] eqn:Hrec; [|discriminate].
              inversion Hr; subst r. clear Hr.
              apply IH in Hrec.
              ** rewrite Hpf. rewrite Estr at 1. rewrite Esub in Hls.
                 rewrite Estr in Hls at 1.
                 eapply ins_split; eauto. apply c_str_firstn; auto.
              ** rewrite Esub in Hwp. eapply wf_split_rest; eauto.
              ** apply c_str_skipn; auto.
           ++ simpl in Hr. inversion Hr; subst r. rewrite <- E.
              rewrite Estr at 1. rewrite Esub in Hls. rewrite Estr in Hls at 1.
              eapply ins_split_failed; eauto. apply c_str_firstn; auto.
      * assert (Hd : radix_trie_diff substr str = length substr) by lia.
        destruct (diff_full _ _ Hs Hd) as [Estr Hsub]. simpl in Hr.
        rewrite Hd in Hr.
        destruct (insert_loop fuel child _ h) as [[[res2 child2] h2]|] eqn:Hrec;
          [|discriminate].
        inversion Hr; subst r. clear Hr.
        apply IH in Hrec.
        -- rewrite Estr at 1. rewrite Estr in Hls at 1.
           eapply ins_descend; eauto.
           destruct (wf_node_cases _ _ _ Hwp) as [[Hne _]|(body & -> & _)]; auto.
           exfalso. eapply c_str_not_leaf; eauto.
        -- eapply wf_child; eauto.
        -- apply c_str_skipn; auto.
Qed.

(** The loop ends within [length str + depth root + 1] iterations, for
    any tree at all. *)
Lemma insert_loop_total fuel : forall root str h,
  (length str + depth root < fuel)%nat ->
  exists r, insert_loop fuel root str h = Some r.
Proof.
  induction fuel as [|fuel IH]; intros root str h Hf; [lia|].
  simpl.
  destruct (radix_trie_lsfind root (str_at str 0)) as [passed pos] eqn:Hls.
  destruct (lsfind_spec _ _ _ _ Hls) as (_ & _ & Hge & Hdp).
  destruct pos as [|sib child substr].
  - destruct (radix_trie_make_suffix NULL str h) as [[res pos'] h1]. eauto.
  - destruct (substr_at substr 0 >? str_at str 0) eqn:Hgt.
    + destruct (radix_trie_make_suffix _ str h) as [[res pos'] h1]. eauto.
    + unfold radix_trie_try_split, radix_trie_split.
      pose proof (diff_le_str substr str) as Hdle.
      destruct (Nat.ltb_spec (radix_trie_diff substr str) (length substr)) as [Hlt|Hfull].
      * destruct (Z.eqb_spec (substr_at substr (radix_trie_diff substr str))
                             (str_at str (radix_trie_diff substr str))) as [Heq|Hne];
          [eauto|].
        destruct (alloc h) as [[|] h1]; simpl; [|eauto].
        destruct (alloc h1) as [ok h2]. simpl.
        assert (Hd1 : (1 <= radix_trie_diff substr str)%nat).
        { destruct (radix_trie_diff substr str) eqn:Hd0; [|lia].
          exfalso. apply Hne. simpl in Hge.
          rewrite Z.gtb_ltb in Hgt. apply Z.ltb_ge in Hgt. lia. }
        destruct (IH (Node NULL child (skipn (radix_trie_diff substr str) substr))
                     (skipn (radix_trie_diff substr str) str) h2) as (r & ->).
        -- rewrite length_skipn. simpl in *. lia.
        -- destruct r as [[res2 child2] h3]. eauto.
      * simpl.
        destruct (IH child (skipn (radix_trie_diff substr str) str) h) as (r & ->).
        -- rewrite length_skipn. simpl in *. lia.
        -- destruct r as [[res2 child2] h3]. eauto.
Qed.

Lemma insert_insertion root str h :
  well_formed root -> c_str str ->
  insertion root str h (radix_trie_insert root str h).
Proof.
  intros Hwf Hs. unfold radix_trie_insert.
  destruct (insert_loop_total (S (length str + depth root)) root str h) as (r & Hr);
    [lia|].
  rewrite Hr. eapply insert_loop_insertion; eauto.
Qed.

Lemma terminal_app (p q : list Z) : q <> [] -> terminal (p ++ q) = terminal q.
Proof.
  intros Hq. unfold terminal, substr_at. rewrite length_app.
  assert (0 < length q)%nat by (destruct q; [congruence | simpl; lia]).
  rewrite app_nth2 by lia. do 2 f_equal. lia.
Qed.

(** A node and its only child read as one node (split and fuse). *)
Lemma own_app child (p q : list Z) :
  q <> [] -> own child (p ++ q) = map (app p) (own child q).
Proof.
  intros Hq. unfold own. rewrite terminal_app by auto.
  rewrite map_app, map_map.
  f_equal.
  - destruct (terminal q); simpl; auto. rewrite removelast_app; auto.
  - apply map_ext. intros a. symmetry. apply app_assoc.
Qed.

Lemma strings_single child q : strings (Node NULL child q) = own child q.
Proof. rewrite strings_node. simpl. apply app_nil_r. Qed.

Lemma str_at_leaf (str : list Z) : substr_at (str ++ [0]) 0 = str_at str 0.
Proof. destruct str; reflexivity. Qed.

Lemma make_suffix_cases pos str h res pos' h1 :
  radix_trie_make_suffix pos str h = (res, pos', h1) ->
  (res = 0 /\ pos' = Node pos NULL (str ++ [0]) /\ alloc h = (true, h1)) \/
  (res = 1 /\ pos' = pos /\ alloc h = (false, h1)).
Proof.
  unfold radix_trie_make_suffix. destruct (alloc h) as [[|] h2]; intros E;
    inversion E; subst; auto.
Qed.

(** Insertion keeps the tree well formed, whether it succeeds or fails. *)
Lemma insertion_wf root str h r :
  insertion root str h r -> well_formed root -> c_str str ->
  well_formed (snd (fst r)).
Proof.
  intros Hi. induction Hi as
    [root str h passed pos res pos' h1 Hls Hgt Hm
    |root str h passed sib Hls
    |root p q t h h1 passed sib child Hls Hp Hsp Hq Hqt Ha
    |root p q t h h1 ok h2 passed sib child res child' h3 Hls Hp Hsp Hq Hqt Ha Ha2 Hi IH
    |root substr t h passed sib child res child' h1 Hls Hne Hsub Hi IH];
    intros Hwf Hs; simpl; auto.
  - destruct (lsfind_spec _ _ _ _ Hls) as (E & Hpa & Hge & _). subst root.
    destruct (make_suffix_cases _ _ _ _ _ _ Hm) as [(_ & -> & _)|(_ & -> & _)]; auto.
    eapply wf_relink; eauto.
    + apply wf_leaf; auto.
      * rewrite str_at_leaf. exact Hgt.
      * eapply wf_relink_inv; eauto.
    + simpl. rewrite str_at_leaf. lia.
  - destruct (lsfind_spec _ _ _ _ Hls) as (E & Hpa & Hge & _). subst root.
    apply c_str_app in Hs. destruct Hs as [_ Ht].
    pose proof (wf_relink_inv _ _ Hwf) as Hwp.
    eapply wf_relink; eauto.
    + eapply wf_split_prefix; eauto. apply IH; auto.
      eapply wf_split_rest; eauto.
    + simpl. unfold str_at, substr_at. destruct p; [congruence | simpl; lia].
  - destruct (lsfind_spec _ _ _ _ Hls) as (E & Hpa & Hge & _). subst root.
    apply c_str_app in Hs. destruct Hs as [_ Ht].
    pose proof (wf_relink_inv _ _ Hwf) as Hwp.
    eapply wf_relink; eauto.
    apply wf_inner; auto.
    + eapply wf_head_gt; eauto.
    + eapply wf_sib; eauto.
    + apply IH; auto. eapply wf_child; eauto.
Qed.

Lemma insertion_res root str h r :
  insertion root str h r -> fst (fst r) = 0 \/ fst (fst r) = 1.
Proof.
  intros Hi. induction Hi; simpl in *; auto.
  match goal with H : radix_trie_make_suffix _ _ _ = _ |- _ =>
    destruct (make_suffix_cases _ _ _ _ _ _ H) as [(-> & _)|(-> & _)]; auto end.
Qed.

(** A successful insertion adds the string to the set; a failed one
    leaves the set as it was. *)
Lemma insertion_strings root str h r :
  insertion root str h r -> well_formed root -> c_str str ->
  (fst (fst r) = 0 ->
   forall s, In s (strings (snd (fst r))) <-> s = str \/ In s (strings root)) /\
  (fst (fst r) <> 0 -> strings (snd (fst r)) = strings root).
Proof.
  intros Hi. induction Hi as
    [root str h passed pos res pos' h1 Hls Hgt Hm
    |root str h passed sib Hls
    |root p q t h h1 passed sib child Hls Hp Hsp Hq Hqt Ha
    |root p q t h h1 ok h2 passed sib child res child' h3 Hls Hp Hsp Hq Hqt Ha Ha2 Hi IH
    |root substr t h passed sib child res child' h1 Hls Hne Hsub Hi IH];
    intros Hwf Hs; simpl.
  - destruct (lsfind_spec _ _ _ _ Hls) as (E & _). subst root.
    destruct (make_suffix_cases _ _ _ _ _ _ Hm) as [(-> & -> & _)|(-> & -> & _)].
    + split; [intros _ s | congruence].
      rewrite !strings_relink, strings_node, own_leaf, !in_app_iff. simpl. 
      intuition congruence.
    + split; [discriminate | reflexivity].
  - split; [intros _ s | congruence].
    destruct (lsfind_spec _ _ _ _ Hls) as (E & _). subst root.
    rewrite !strings_relink, strings_node, own_leaf, !in_app_iff. simpl.
    intuition (subst; auto).
  - split; [discriminate | reflexivity].
  - destruct (lsfind_spec _ _ _ _ Hls) as (E & _). subst root.
    apply c_str_app in Hs. destruct Hs as [_ Ht].
    pose proof (wf_relink_inv _ _ Hwf) as Hwp.
    destruct IH as [IH0 IH1]; auto; [eapply wf_split_rest; eauto|].
    cbn [fst snd] in IH0, IH1. rewrite strings_single in IH0, IH1.
    rewrite !strings_relink, !strings_node. rewrite own_inner by auto.
    rewrite own_app by auto. split.
    + intros E s. specialize (IH0 E). rewrite !in_app_iff, !in_map_iff.
      split.
      * intros [H|[(x & <- & Hx)|H]]; auto. apply IH0 in Hx.
        destruct Hx as [->|Hx]; auto. right. right. left. eauto.
      * intros [->|[H|[(x & <- & Hx)|H]]]; auto.
        -- right. left. exists t. split; auto. apply IH0. auto.
        -- right. left. exists x. split; auto. apply IH0. auto.
    + intros E. rewrite (IH1 E). reflexivity.
  - destruct (lsfind_spec _ _ _ _ Hls) as (E & _). subst root.
    apply c_str_app in Hs. destruct Hs as [_ Ht].
    pose proof (wf_relink_inv _ _ Hwf) as Hwp.
    destruct IH as [IH0 IH1]; auto; [eapply wf_child; eauto|].
    cbn [fst snd] in IH0, IH1.
    rewrite !strings_relink, !strings_node. rewrite !own_inner by auto. split.
    + intros E s. specialize (IH0 E). rewrite !in_app_iff, !in_map_iff.
      split.
      * intros [H|[(x & <- & Hx)|H]]; auto. apply IH0 in Hx.
        destruct Hx as [->|Hx]; auto. right. right. left. eauto.
      * intros [->|[H|[(x & <- & Hx)|H]]]; auto.
        -- right. left. exists t. split; auto. apply IH0. auto.
        -- right. left. exists x. split; auto. apply IH0. auto.
    + intros E. rewrite (IH1 E). reflexivity.
Qed.

(** When the first allocation of the call fails, nothing has changed. *)
Lemma insertion_first_alloc root str h r :
  insertion root str h r -> fst (alloc h) = false -> snd (fst r) = root.
Proof.
  intros Hi. induction Hi as
    [root str h passed pos res pos' h1 Hls Hgt Hm
    |root str h passed sib Hls
    |root p q t h h1 passed sib child Hls Hp Hsp Hq Hqt Ha
    |root p q t h h1 ok h2 passed sib child res child' h3 Hls Hp Hsp Hq Hqt Ha Ha2 Hi IH
    |root substr t h passed sib child res child' h1 Hls Hne Hsub Hi IH];
    intros Hf; simpl in *; auto.
  - destruct (lsfind_spec _ _ _ _ Hls) as (E & _). subst root.
    destruct (make_suffix_cases _ _ _ _ _ _ Hm) as [(_ & _ & Ha)|(_ & -> & _)]; auto.
    rewrite Ha in Hf. discriminate.
  - rewrite Ha in Hf. discriminate.
  - destruct (lsfind_spec _ _ _ _ Hls) as (E & _). subst root.
    rewrite IH; auto.
Qed.

(** ** Insertion and the canonical form *)

Lemma count_sibs_relink passed t :
  count_sibs (relink passed t) = (length passed + count_sibs t)%nat.
Proof.
  induction passed as [|[c s] passed IH]; simpl; auto.
Qed.

Lemma canonical_relink passed t :
  canonical (relink passed t) =
  forallb (fun p => (terminal (snd p) || (2 <=? count_sibs (fst p))%nat)
                    && canonical (fst p)) passed
  && canonical t.
Proof.
  induction passed as [|[c s] passed IH]; cbn [relink canonical forallb fst snd]; auto.
  rewrite IH.
  destruct (terminal s || (2 <=? count_sibs c)%nat), (canonical c),
    (forallb _ passed), (canonical t); reflexivity.
Qed.

Lemma canonical_relink_replace passed t t' :
  canonical (relink passed t) = true -> canonical t' = true ->
  canonical (relink passed t') = true.
Proof.
  rewrite !canonical_relink, !andb_true_iff. tauto.
Qed.

Lemma canonical_relink_inv passed t :
  canonical (relink passed t) = true -> canonical t = true.
Proof. rewrite canonical_relink, andb_true_iff. tauto. Qed.

Lemma canonical_node sib child substr :
  canonical (Node sib child substr) = true <->
  (terminal substr = true \/ (2 <= count_sibs child)%nat) /\
  canonical sib = true /\ canonical child = true.
Proof.
  cbn [canonical]. rewrite !andb_true_iff, orb_true_iff, Nat.leb_le. tauto.
Qed.

(** A string that starts with a byte no sibling starts with gets a node
    of its own in the list. *)
Lemma insertion_fresh root str h res root' h' :
  insertion root str h (res, root', h') -> res = 0 ->
  head_gt (str_at str 0) (snd (radix_trie_lsfind root (str_at str 0))) ->
  count_sibs root' = S (count_sibs root).
Proof.
  intros Hi Hres Hgt. inversion Hi; subst;
    match goal with H : radix_trie_lsfind _ _ = _ |- _ =>
      rewrite H in Hgt; simpl in Hgt;
      destruct (lsfind_spec _ _ _ _ H) as (E & _) end.
  - match goal with H : radix_trie_make_suffix _ _ _ = _ |- _ =>
      destruct (make_suffix_cases _ _ _ _ _ _ H) as [(_ & -> & _)|(? & _)];
        [|lia] end.
    rewrite E. rewrite !count_sibs_relink. simpl. lia.
  - rewrite str_at_leaf in Hgt. lia.
  - rewrite substr_at_app_l in Hgt by auto.
    unfold str_at, substr_at in Hgt. destruct p; [congruence | simpl in Hgt; lia].
  - rewrite substr_at_app_l in Hgt by auto.
    unfold str_at, substr_at in Hgt. destruct p; [congruence | simpl in Hgt; lia].
  - unfold str_at, substr_at in Hgt.
    destruct substr; [congruence | simpl in Hgt; lia].
Qed.

(** A successful insertion keeps the canonical form, and removes no node
    from the list it works on. *)
Lemma insertion_canonical root str h r :
  insertion root str h r -> fst (fst r) = 0 -> canonical root = true ->
  canonical (snd (fst r)) = true /\
  (count_sibs root <= count_sibs (snd (fst r)))%nat.
Proof.
  intros Hi. induction Hi as
    [root str h passed pos res pos' h1 Hls Hgt Hm
    |root str h passed sib Hls
    |root p q t h h1 passed sib child Hls Hp Hsp Hq Hqt Ha
    |root p q t h h1 ok h2 passed sib child res child' h3 Hls Hp Hsp Hq Hqt Ha Ha2 Hi IH
    |root substr t h passed sib child res child' h1 Hls Hne Hsub Hi IH];
    cbn [fst snd]; intros Hres Hc; auto; try discriminate.
  - destruct (lsfind_spec _ _ _ _ Hls) as (E & _). subst root.
    destruct (make_suffix_cases _ _ _ _ _ _ Hm) as [(_ & -> & _)|(? & _)];
      [|lia].
    rewrite !count_sibs_relink. simpl. split; [|lia].
    eapply canonical_relink_replace; eauto.
    apply canonical_node. rewrite terminal_leaf.
    apply canonical_relink_inv in Hc. auto.
  - destruct (lsfind_spec _ _ _ _ Hls) as (E & _). subst root.
    rewrite !count_sibs_relink. simpl. split; [|lia].
    pose proof (canonical_relink_inv _ _ Hc) as Hn.
    apply canonical_node in Hn. destruct Hn as (Hk & Hcs & Hcc).
    rewrite terminal_app in Hk by auto.
    destruct IH as [IHc _]; auto.
    { apply canonical_node. auto. }
    eapply canonical_relink_replace; eauto.
    apply canonical_node. repeat split; auto. right.
    assert (Hn : count_sibs child' = S (count_sibs (Node NULL child q))).
    { eapply insertion_fresh; eauto. simpl.
      destruct (Z.ltb_spec (substr_at q 0) (str_at t 0)); simpl; auto. lia. }
    rewrite Hn. simpl. lia.
  - destruct (lsfind_spec _ _ _ _ Hls) as (E & _). subst root.
    rewrite !count_sibs_relink. simpl. split; [|lia].
    pose proof (canonical_relink_inv _ _ Hc) as Hn.
    apply canonical_node in Hn. destruct Hn as (Hk & Hcs & Hcc).
    destruct IH as [IHc IHn]; auto. cbn [fst snd] in IHc, IHn.
    eapply canonical_relink_replace; eauto.
    apply canonical_node. repeat split; auto.
    destruct Hk as [Hk|Hk]; auto. right. lia.
Qed.

(** ** Deletion, case by case *)

(** How a member held by a node compares with the node's substring. *)
Lemma own_member_diff sib child substr str :
  well_formed (Node sib child substr) -> c_str str ->
  In str (own child substr) ->
  radix_trie_diff substr str = length substr \/
  ((radix_trie_diff substr str < length substr)%nat /\
   substr_at substr (radix_trie_diff substr str) =
   str_at str (radix_trie_diff substr str)).
Proof.
  intros Hwf Hs Hin.
  destruct (wf_node_cases _ _ _ Hwf) as [[Hne Hs']|(body & -> & Hs' & ->)].
  - rewrite own_inner in Hin by auto. apply in_map_iff in Hin.
    destruct Hin as (t & <- & _). left. apply diff_self. exact Hs'.
  - rewrite own_leaf in Hin. destruct Hin as [->|[]]. right.
    rewrite diff_leaf by auto. rewrite length_app. simpl. split; [lia|].
    unfold substr_at, str_at. rewrite app_nth2, Nat.sub_diag by lia. simpl.
    symmetry. apply nth_overflow. lia.
Qed.

(** A string is in no other node of the list than the one found for its
    first byte. *)
Lemma lsfind_elsewhere root str passed sib child substr :
  well_formed root ->
  radix_trie_lsfind root (str_at str 0) = (passed, Node sib child substr) ->
  ~ In str (flat_map (fun p => own (fst p) (snd p)) passed) /\
  ~ In str (strings sib).
Proof.
  intros Hwf Hls. destruct (lsfind_spec _ _ _ _ Hls) as (E & Hp & Hg & _).
  subst root. split; intros Hin.
  - apply passed_strings_lt with (chr := str_at str 0) (t := Node sib child substr)
      in Hin; auto. lia.
  - apply wf_relink_inv in Hwf. simpl in Hg.
    apply strings_head_gt with (c := substr_at substr 0) in Hin.
    + lia.
    + eapply wf_sib; eauto.
    + eapply wf_head_gt; eauto.
Qed.

Lemma delete_loop_deletion fuel : forall root str h r,
  well_formed root -> c_str str ->
  delete_loop fuel root str h = Some r ->
  deletion root str h r.
Proof.
  induction fuel as [|fuel IH]; intros root str h r Hwf Hs Hr; [discriminate|].
  cbn [delete_loop] in Hr.
  destruct (radix_trie_lsfind root (str_at str 0)) as [passed pos] eqn:Hls.
  pose proof (strings_lsfind root str passed pos Hwf Hls) as Hmem.
  destruct (lsfind_spec _ _ _ _ Hls) as (E & Hp & Hge & _).
  assert (Hwp : well_formed pos) by (subst root; eapply wf_relink_inv; eauto).
  destruct pos as [|sib child substr].
  - cbn iota beta in Hr. injection Hr as <-. apply del_absent. tauto.
  - pose proof (diff_le_substr substr str) as Hdle.
    destruct (Nat.ltb_spec (radix_trie_diff substr str) (length substr)) as [Hlt|Hfull].
    + destruct (Z.eqb_spec (substr_at substr (radix_trie_diff substr str))
                           (str_at str (radix_trie_diff substr str))) as [Heq|Hne].
      * injection Hr as <-.
        apply diff_matched in Heq; auto; [|eapply wf_substr_ok; eauto].
        subst substr.
        destruct (wf_node_cases _ _ _ Hwp) as [[_ Hs']|(body & _ & _ & ->)].
        -- exfalso. eapply c_str_not_leaf; eauto.
        -- eapply del_here; eauto.
      * injection Hr as <-. apply del_absent. intros Hin.
        apply Hmem in Hin.
        destruct (own_member_diff _ _ _ _ Hwp Hs Hin) as [Hd|[_ Hd]]; [lia|auto].
    + assert (Hd : radix_trie_diff substr str = length substr) by lia.
      destruct (diff_full _ _ Hs Hd) as [Estr Hsub]. rewrite Hd in Hr.
      assert (Hne : substr <> []).
      { destruct (wf_node_cases _ _ _ Hwp) as [[Hne _]|(body & -> & _)]; auto.
        exfalso. eapply c_str_not_leaf; eauto. }
      destruct (delete_loop fuel child _ h) as [[[st child'] lost]|] eqn:Hrec;
        [|discriminate].
      apply IH in Hrec; [|eapply wf_child; eauto|apply c_str_skipn; auto].
      rewrite Estr in Hls at 1.
      destruct st as [|res h1].
      * destruct (radix_trie_fuse (Node sib child' substr) h) as [[res parent] h1] eqn:Hf.
        cbn iota beta in Hr. injection Hr as <-. rewrite Estr at 1.
        eapply del_parent; eauto.
      * cbn iota beta in Hr. injection Hr as <-. rewrite Estr at 1.
        eapply del_above; eauto.
Qed.

Lemma delete_loop_total fuel : forall root str h,
  (depth root < fuel)%nat -> exists r, delete_loop fuel root str h = Some r.
Proof.
  induction fuel as [|fuel IH]; intros root str h Hf; [lia|].
  cbn [delete_loop].
  destruct (radix_trie_lsfind root (str_at str 0)) as [passed pos] eqn:Hls.
  destruct (lsfind_spec _ _ _ _ Hls) as (_ & _ & _ & Hdp).
  destruct pos as [|sib child substr]; [eauto|].
  destruct (radix_trie_diff substr str <? length substr)%nat.
  - destruct (substr_at substr _ =? _); eauto.
  - destruct (IH child (skipn (radix_trie_diff substr str) str) h) as (r & ->).
    + simpl in Hdp. lia.
    + destruct r as [[[|res h1] child'] lost].
      * destruct (radix_trie_fuse (Node sib child' substr) h) as [[res parent] h1]. eauto.
      * eauto.
Qed.

Lemma fuse_cases sib child substr h res parent h1 :
  radix_trie_fuse (Node sib child substr) h = (res, parent, h1) ->
  (res = 0 /\ parent = Node sib child substr /\ h1 = h /\ count_sibs child <> 1%nat) \/
  (res = -1 /\ parent = Node sib child substr /\ alloc h = (false, h1) /\
   count_sibs child = 1%nat) \/
  (res = 0 /\ alloc h = (true, h1) /\
   exists cchild csubstr, child = Node NULL cchild csubstr /\
                          parent = Node sib cchild (substr ++ csubstr)).
Proof.
  unfold radix_trie_fuse. destruct child as [|[|] cchild csubstr].
  - intros E. inversion E; subst. left. simpl. auto.
  - destruct (alloc h) as [[|] h2]; intros E; inversion E; subst; right.
    + right. eauto 7.
    + left. simpl. auto.
  - intros E. inversion E; subst. left. simpl. auto.
Qed.

(** Fusing a node with its only child keeps the set and the invariants. *)
Lemma fuse_keeps sib child substr h res parent h1 :
  radix_trie_fuse (Node sib child substr) h = (res, parent, h1) ->
  substr <> [] -> c_str substr ->
  well_formed (Node sib child substr) ->
  well_formed parent /\ strings parent = strings (Node sib child substr) /\
  head_ge (substr_at substr 0) parent.
Proof.
  intros Hf Hne Hs Hwf.
  destruct (fuse_cases _ _ _ _ _ _ _ Hf)
    as [(_ & -> & _)|[(_ & -> & _)|(_ & _ & cc & cs & -> & ->)]];
    try (repeat split; auto; simpl; lia).
  pose proof (wf_child _ _ _ Hwf) as Hwc.
  assert (Hcs : cs <> []).
  { destruct (wf_node_cases _ _ _ Hwc) as [[H _]|(body & -> & _)]; auto.
    destruct body; discriminate. }
  repeat split.
  - destruct (wf_node_cases _ _ _ Hwc) as [[_ Hcstr]|(body & -> & Hb & ->)].
    + apply wf_inner.
      * destruct substr; [congruence | discriminate].
      * apply c_str_app. auto.
      * rewrite substr_at_app_l by auto. eapply wf_head_gt; eauto.
      * eapply wf_sib; eauto.
      * eapply wf_child; eauto.
    + rewrite app_assoc. apply wf_leaf.
      * apply c_str_app. auto.
      * rewrite <- app_assoc, substr_at_app_l by auto. eapply wf_head_gt; eauto.
      * eapply wf_sib; eauto.
  - rewrite !strings_node. f_equal.
    rewrite own_app by auto. rewrite (own_inner (Node NULL cc cs) substr) by auto.
    rewrite strings_single. reflexivity.
  - simpl. rewrite substr_at_app_l by auto. lia.
Qed.

Lemma str_at_app_first (p t : list Z) : p <> [] -> str_at (p ++ t) 0 = substr_at p 0.
Proof. destruct p; [congruence | reflexivity]. Qed.

(** Deletion keeps the tree well formed, also when fusing fails. *)
Lemma deletion_wf root str h r :
  deletion root str h r -> well_formed root -> c_str str ->
  well_formed (snd (fst r)).
Proof.
  intros Hd. induction Hd as
    [root str h Hin
    |root str h passed sib Hls
    |root substr t h passed sib child child' lost res parent h1 Hls Hne Hsub Hd IH Hf
    |root substr t h passed sib child child' lost res h1 Hls Hne Hsub Hd IH];
    intros Hwf Hs; cbn [fst snd] in *; auto.
  - destruct (lsfind_spec _ _ _ _ Hls) as (E & Hpa & Hge & _). subst root.
    pose proof (wf_relink_inv _ _ Hwf) as Hwp.
    eapply wf_relink; eauto.
    + eapply wf_sib; eauto.
    + apply wf_head_gt in Hwp. rewrite str_at_leaf in Hwp.
      destruct sib; simpl in *; auto. lia.
  - destruct (lsfind_spec _ _ _ _ Hls) as (E & Hpa & Hge & _). subst root.
    apply c_str_app in Hs. destruct Hs as [_ Ht].
    pose proof (wf_relink_inv _ _ Hwf) as Hwp.
    assert (Hwn : well_formed (Node sib child' substr)).
    { apply wf_inner; auto.
      - eapply wf_head_gt; eauto.
      - eapply wf_sib; eauto.
      - apply IH; auto. eapply wf_child; eauto. }
    destruct (fuse_keeps _ _ _ _ _ _ _ Hf Hne Hsub Hwn) as (Hwpar & _ & Hhd).
    eapply wf_relink; eauto.
    rewrite str_at_app_first by auto. exact Hhd.
  - destruct (lsfind_spec _ _ _ _ Hls) as (E & Hpa & Hge & _). subst root.
    apply c_str_app in Hs. destruct Hs as [_ Ht].
    pose proof (wf_relink_inv _ _ Hwf) as Hwp.
    eapply wf_relink; eauto.
    apply wf_inner; auto.
    + eapply wf_head_gt; eauto.
    + eapply wf_sib; eauto.
    + apply IH; auto. eapply wf_child; eauto.
Qed.

(** Deletion removes the string, and nothing else, from the set. *)
Lemma deletion_strings root str h r :
  deletion root str h r -> well_formed root -> c_str str ->
  forall s, In s (strings (snd (fst r))) <-> s <> str /\ In s (strings root).
Proof.
  intros Hd. induction Hd as
    [root str h Hin
    |root str h passed sib Hls
    |root substr t h passed sib child child' lost res parent h1 Hls Hne Hsub Hd IH Hf
    |root substr t h passed sib child child' lost res h1 Hls Hne Hsub Hd IH];
    intros Hwf Hs s; cbn [fst snd] in *.
  - split; [|tauto]. intros H. split; auto. intros ->. auto.
  - destruct (lsfind_elsewhere _ _ _ _ _ _ Hwf Hls) as [Hnp Hns].
    destruct (lsfind_spec _ _ _ _ Hls) as (E & _). subst root.
    rewrite !strings_relink, strings_node, own_leaf, !in_app_iff. simpl.
    split.
    + intros [H|H]; (split; [intros ->; tauto | tauto]).
    + intros (Hne & [H|[[H|[]]|H]]); auto. congruence.
  - destruct (lsfind_elsewhere _ _ _ _ _ _ Hwf Hls) as [Hnp Hns].
    destruct (lsfind_spec _ _ _ _ Hls) as (E & _). subst root.
    apply c_str_app in Hs. destruct Hs as [_ Ht].
    pose proof (wf_relink_inv _ _ Hwf) as Hwp.
    pose proof (wf_child _ _ _ Hwp) as Hwc.
    assert (Hwn : well_formed (Node sib child' substr)).
    { apply wf_inner; auto.
      - eapply wf_head_gt; eauto.
      - eapply wf_sib; eauto.
      - apply (deletion_wf _ _ _ _ Hd); auto. }
    destruct (fuse_keeps _ _ _ _ _ _ _ Hf Hne Hsub Hwn) as (_ & Hstr & _).
    rewrite !strings_relink, Hstr, !strings_node, !own_inner, !in_app_iff,
      !in_map_iff by auto.
    specialize (IH Hwc Ht). split.
    + intros [H|[(x & <- & Hx)|H]].
      * split; [intros ->; tauto | tauto].
      * apply IH in Hx. destruct Hx as [Hxt Hx]. split.
        -- intros E. apply app_inv_head in E. auto.
        -- right. left. eauto.
      * split; [intros ->; tauto | tauto].
    + intros (Hns' & [H|[(x & <- & Hx)|H]]); auto.
      right. left. exists x. split; auto. apply IH. split; auto.
      intros ->. auto.
  - destruct (lsfind_elsewhere _ _ _ _ _ _ Hwf Hls) as [Hnp Hns].
    destruct (lsfind_spec _ _ _ _ Hls) as (E & _). subst root.
    apply c_str_app in Hs. destruct Hs as [_ Ht].
    pose proof (wf_relink_inv _ _ Hwf) as Hwp.
    pose proof (wf_child _ _ _ Hwp) as Hwc.
    rewrite !strings_relink, !strings_node, !own_inner, !in_app_iff,
      !in_map_iff by auto.
    specialize (IH Hwc Ht). split.
    + intros [H|[(x & <- & Hx)|H]].
      * split; [intros ->; tauto | tauto].
      * apply IH in Hx. destruct Hx as [Hxt Hx]. split.
        -- intros E. apply app_inv_head in E. auto.
        -- right. left. eauto.
      * split; [intros ->; tauto | tauto].
    + intros (Hns' & [H|[(x & <- & Hx)|H]]); auto.
      right. left. exists x. split; auto. apply IH. split; auto.
      intros ->. auto.
Qed.


Lemma deletion_res root str h st root' lost :
  deletion root str h (st, root', lost) ->
  match st with
  | Pending => True
  | Done res _ => res = 0 \/ res = -1
  end.
Proof.
  intros Hd. remember (st, root', lost) as r eqn:Er. revert st root' lost Er.
  induction Hd; intros st root' lost' Er; inversion Er; subst; auto.
  - match goal with H : radix_trie_fuse _ _ = _ |- _ =>
      destruct (fuse_cases _ _ _ _ _ _ _ H)
        as [(-> & _)|[(-> & _)|(-> & _)]]; auto end.
  - eapply (IHHd (Done res h1)); eauto.
Qed.

(** Deletion keeps the canonical form unless fusing fails.  A list that
    has just lost a node is one shorter; any other is as long as before. *)
Lemma deletion_canonical root str h r :
  deletion root str h r -> well_formed root -> c_str str ->
  canonical root = true ->
  match fst (fst r) with
  | Pending => canonical (snd (fst r)) = true /\
               S (count_sibs (snd (fst r))) = count_sibs root
  | Done res _ => res = 0 ->
               canonical (snd (fst r)) = true /\
               count_sibs (snd (fst r)) = count_sibs root
  end.
Proof.
  intros Hd. induction Hd as
    [root str h Hin
    |root str h passed sib Hls
    |root substr t h passed sib child child' lost res parent h1 Hls Hne Hsub Hd IH Hf
    |root substr t h passed sib child child' lost res h1 Hls Hne Hsub Hd IH];
    intros Hwf Hs Hc; cbn [fst snd] in *; auto.
  - destruct (lsfind_spec _ _ _ _ Hls) as (E & _). subst root.
    rewrite !count_sibs_relink. simpl. split; [|lia].
    pose proof (canonical_relink_inv _ _ Hc) as Hn.
    apply canonical_node in Hn.
    eapply canonical_relink_replace; eauto. tauto.
  - intros Hres.
    destruct (lsfind_spec _ _ _ _ Hls) as (E & _). subst root.
    apply c_str_app in Hs. destruct Hs as [_ Ht].
    pose proof (wf_relink_inv _ _ Hwf) as Hwp.
    pose proof (wf_child _ _ _ Hwp) as Hwc.
    pose proof (canonical_relink_inv _ _ Hc) as Hn.
    apply canonical_node in Hn. destruct Hn as (Hk & Hcs & Hcc).
    rewrite terminal_c_str in Hk by auto.
    destruct Hk as [Hk|Hk]; [discriminate|].
    destruct (IH Hwc Ht Hcc) as [IHc IHn].
    pose proof (deletion_wf _ _ _ _ Hd Hwc Ht) as Hwc'. cbn [fst snd] in Hwc'.
    destruct (fuse_cases _ _ _ _ _ _ _ Hf)
      as [(_ & -> & _ & Hn1)|[(Hr & _)|(_ & _ & cc & cs & -> & ->)]].
    + rewrite !count_sibs_relink. simpl. split; [|lia].
      eapply canonical_relink_replace; eauto.
      apply canonical_node. repeat split; auto. right. lia.
    + lia.
    + rewrite !count_sibs_relink. simpl. split; [|lia].
      eapply canonical_relink_replace; eauto.
      apply canonical_node in IHc. destruct IHc as (Hk' & _ & Hcc').
      apply canonical_node. repeat split; auto.
      rewrite terminal_app; auto.
      destruct (wf_node_cases _ _ _ Hwc') as [[H _]|(body & -> & _)]; auto.
      destruct body; discriminate.
  - intros Hres.
    destruct (lsfind_spec _ _ _ _ Hls) as (E & _). subst root.
    apply c_str_app in Hs. destruct Hs as [_ Ht].
    pose proof (wf_relink_inv _ _ Hwf) as Hwp.
    pose proof (wf_child _ _ _ Hwp) as Hwc.
    pose proof (canonical_relink_inv _ _ Hc) as Hn.
    apply canonical_node in Hn. destruct Hn as (Hk & Hcs & Hcc).
    destruct (IH Hwc Ht Hcc Hres) as [IHc IHn].
    rewrite !count_sibs_relink. simpl. split; [|lia].
    eapply canonical_relink_replace; eauto.
    apply canonical_node. repeat split; auto. rewrite IHn. exact Hk.
Qed.

(** [radix_trie_delete] in terms of its loop. *)
Lemma delete_deletion root str h :
  well_formed root -> c_str str ->
  exists st root' lost,
    deletion root str h (st, root', lost) /\
    radix_trie_delete_full root str h =
    match st with
    | Pending => (0, root', h, lost)
    | Done res h1 => (res, root', h1, lost)
    end.
Proof.
  intros Hwf Hs. unfold radix_trie_delete_full.
  destruct (delete_loop_total (S (depth root)) root str h) as (r & Hr); [lia|].
  rewrite Hr. apply delete_loop_deletion in Hr; auto.
  destruct r as [[st root'] lost]. exists st, root', lost. split; [exact Hr|].
  destruct st; reflexivity.
Qed.

(** ** Invariants of the trees that calls can make *)

Lemma insert_wf root str h :
  well_formed root -> c_str str ->
  well_formed (snd (fst (radix_trie_insert root str h))).
Proof.
  intros Hwf Hs. eapply insertion_wf; eauto. apply insert_insertion; auto.
Qed.

Lemma delete_wf root str h :
  well_formed root -> c_str str ->
  well_formed (snd (fst (radix_trie_delete root str h))).
Proof.
  intros Hwf Hs. unfold radix_trie_delete.
  destruct (delete_deletion root str h Hwf Hs) as (st & root' & lost & Hd & ->).
  apply deletion_wf in Hd; auto. destruct st; exact Hd.
Qed.

Lemma reachable_wf root : reachable root -> well_formed root.
Proof.
  intros H. induction H.
  - constructor.
  - apply insert_wf; auto.
  - apply delete_wf; auto.
Qed.

Lemma reachable_ok_reachable root : reachable_ok root -> reachable root.
Proof. intros H. induction H; constructor; auto. Qed.

Lemma insert_canonical root str h :
  well_formed root -> c_str str -> canonical root = true ->
  fst (fst (radix_trie_insert root str h)) = 0 ->
  canonical (snd (fst (radix_trie_insert root str h))) = true.
Proof.
  intros Hwf Hs Hc Hres.
  eapply insertion_canonical; eauto. apply insert_insertion; auto.
Qed.

Lemma delete_canonical root str h :
  well_formed root -> c_str str -> canonical root = true ->
  fst (fst (radix_trie_delete root str h)) = 0 ->
  canonical (snd (fst (radix_trie_delete root str h))) = true.
Proof.
  unfold radix_trie_delete. intros Hwf Hs Hc.
  destruct (delete_deletion root str h Hwf Hs) as (st & root' & lost & Hd & ->).
  pose proof (deletion_canonical _ _ _ _ Hd Hwf Hs Hc) as H.
  destruct st; cbn [fst snd] in *; tauto.
Qed.

Lemma reachable_ok_canonical root : reachable_ok root -> canonical root = true.
Proof.
  intros H. induction H.
  - reflexivity.
  - apply insert_canonical; auto.
    apply reachable_wf, reachable_ok_reachable; auto.
  - apply delete_canonical; auto.
    apply reachable_wf, reachable_ok_reachable; auto.
Qed.

Lemma insert_strings root str h :
  well_formed root -> c_str str ->
  (fst (fst (radix_trie_insert root str h)) = 0 ->
   forall s, In s (strings (snd (fst (radix_trie_insert root str h)))) <->
             s = str \/ In s (strings root)) /\
  (fst (fst (radix_trie_insert root str h)) <> 0 ->
   strings (snd (fst (radix_trie_insert root str h))) = strings root).
Proof.
  intros Hwf Hs. eapply insertion_strings; eauto. apply insert_insertion; auto.
Qed.

Lemma delete_strings root str h :
  well_formed root -> c_str str ->
  forall s, In s (strings (snd (fst (radix_trie_delete root str h)))) <->
            s <> str /\ In s (strings root).
Proof.
  unfold radix_trie_delete. intros Hwf Hs.
  destruct (delete_deletion root str h Hwf Hs) as (st & root' & lost & Hd & ->).
  pose proof (deletion_strings _ _ _ _ Hd Hwf Hs) as H.
  destruct st; exact H.
Qed.

(** ** The values [radix_trie_delete] returns *)

Lemma deletion_absent root str h r :
  deletion root str h r -> well_formed root ->
  ~ In str (strings root) -> r = (Done 0 h, root, NULL).
Proof.
  intros Hd. induction Hd as
    [root str h Hin
    |root str h passed sib Hls
    |root substr t h passed sib child child' lost res parent h1 Hls Hne Hsub Hd IH Hf
    |root substr t h passed sib child child' lost res h1 Hls Hne Hsub Hd IH];
    intros Hwf Hnin; auto.
  - exfalso. apply Hnin.
    destruct (lsfind_spec _ _ _ _ Hls) as (E & _). subst root.
    rewrite strings_relink, strings_node, own_leaf. 
    apply in_or_app. right. left. reflexivity.
  - destruct (lsfind_spec _ _ _ _ Hls) as (E & _). subst root.
    pose proof (wf_relink_inv _ _ Hwf) as Hwp.
    assert (Hc : ~ In t (strings child)).
    { intros Hin. apply Hnin. rewrite strings_relink, strings_node, own_inner by auto.
      apply in_or_app. right. apply in_or_app. left. apply in_map. exact Hin. }
    specialize (IH (wf_child _ _ _ Hwp) Hc). discriminate.
  - destruct (lsfind_spec _ _ _ _ Hls) as (E & _). subst root.
    pose proof (wf_relink_inv _ _ Hwf) as Hwp.
    assert (Hc : ~ In t (strings child)).
    { intros Hin. apply Hnin. rewrite strings_relink, strings_node, own_inner by auto.
      apply in_or_app. right. apply in_or_app. left. apply in_map. exact Hin. }
    specialize (IH (wf_child _ _ _ Hwp) Hc). injection IH as -> -> -> ->.
    reflexivity.
Qed.

(** For a string that is not a member the call changes nothing and
    returns 0. *)
Lemma delete_absent_is_silent root str h :
  well_formed root -> c_str str -> radix_trie_lookup root str = false ->
  radix_trie_delete root str h = (0, root, h).
Proof.
  intros Hwf Hs Hl. unfold radix_trie_delete.
  destruct (delete_deletion root str h Hwf Hs) as (st & root' & lost & Hd & ->).
  apply deletion_absent in Hd; auto.
  - injection Hd as -> -> ->. reflexivity.
  - intros Hin. apply lookup_correct in Hin; auto. congruence.
Qed.

(** No call returns a positive value. *)
Lemma delete_return_values root str h :
  well_formed root -> c_str str ->
  fst (fst (radix_trie_delete root str h)) = 0 \/
  fst (fst (radix_trie_delete root str h)) = -1.
Proof.
  intros Hwf Hs. unfold radix_trie_delete.
  destruct (delete_deletion root str h Hwf Hs) as (st & root' & lost & Hd & ->).
  apply deletion_res in Hd. destruct st; auto.
Qed.

Lemma insert_return_values root str h :
  well_formed root -> c_str str ->
  fst (fst (radix_trie_insert root str h)) = 0 \/
  fst (fst (radix_trie_insert root str h)) = 1.
Proof.
  intros Hwf Hs. eapply insertion_res. apply insert_insertion; auto.
Qed.

(** ** Order of the members *)

Lemma lex_lt_irrefl x : ~ lex_lt x x.
Proof.
  induction x as [|a x IH]; intros H; inversion H; subst; auto. lia.
Qed.

Lemma lex_lt_trans x y z : lex_lt x y -> lex_lt y z -> lex_lt x z.
Proof.
  intros Hxy. revert z. induction Hxy; intros z Hyz; inversion Hyz; subst;
    try (constructor; auto; lia).
Qed.

Lemma lex_lt_app p x y : lex_lt x y -> lex_lt (p ++ x) (p ++ y).
Proof. intros H. induction p; simpl; auto. apply lex_tail. auto. Qed.

Lemma char_lt_irrefl x : ~ char_lt x x.
Proof. apply lex_lt_irrefl. Qed.

Lemma char_lt_trans x y z : char_lt x y -> char_lt y z -> char_lt x z.
Proof. apply lex_lt_trans. Qed.

Lemma char_lt_app p x y : char_lt x y -> char_lt (p ++ x) (p ++ y).
Proof.
  unfold char_lt. intros H. rewrite <- !app_assoc. apply lex_lt_app. exact H.
Qed.

(** The first bytes decide, the terminator standing for the first byte of
    the empty string. *)
Lemma char_lt_first x y : str_at x 0 < str_at y 0 -> char_lt x y.
Proof.
  unfold str_at, char_lt.
  destruct x as [|a x], y as [|b y]; simpl; intros; try lia;
    constructor; auto.
Qed.

(** On strings without negative values the terminator is below every
    byte, and the order is the plain lexicographic one. *)
Lemma char_lt_lex_lt x y : Forall (fun c => 0 < c) x -> char_lt x y -> lex_lt x y.
Proof.
  unfold char_lt. revert y. induction x as [|a x IH]; intros y Hx H.
  - destruct y as [|b y]; [|constructor].
    exfalso. apply (lex_lt_irrefl _ H).
  - inversion Hx as [|? ? Ha Hx']; subst.
    destruct y as [|b y]; simpl in H.
    + inversion H; subst; [lia|].
      match goal with Ht : lex_lt _ [] |- _ => inversion Ht end.
    + inversion H; subst.
      * apply lex_head. assumption.
      * apply lex_tail. apply IH; assumption.
Qed.

Lemma raw_byte_plain c : plain c -> raw_byte c = c.
Proof. unfold plain, raw_byte. intros H. apply Z.mod_small. lia. Qed.

Lemma map_raw_byte_plain s : Forall plain s -> map raw_byte s = s.
Proof.
  induction 1 as [|c s Hc _ IH]; simpl; [reflexivity|].
  rewrite raw_byte_plain, IH by assumption. reflexivity.
Qed.

Lemma plain_above_zero s : Forall plain s -> Forall (fun c => 0 < c) s.
Proof. apply Forall_impl. unfold plain. intros. lia. Qed.

Lemma sorted_app (l1 l2 : list (list Z)) :
  StronglySorted char_lt l1 -> StronglySorted char_lt l2 ->
  (forall x y, In x l1 -> In y l2 -> char_lt x y) ->
  StronglySorted char_lt (l1 ++ l2).
Proof.
  intros H1 H2 H. induction H1 as [|a l1 Hs IH Hall]; simpl; auto.
  constructor.
  - apply IH. intros x y Hx Hy. apply H; simpl; auto.
  - apply Forall_app. split; auto.
    apply Forall_forall. intros y Hy. apply H; simpl; auto.
Qed.

Lemma sorted_map_app p (l : list (list Z)) :
  StronglySorted char_lt l -> StronglySorted char_lt (map (app p) l).
Proof.
  intros H. induction H as [|a l Hs IH Hall]; simpl; constructor; auto.
  apply Forall_forall. intros y Hy. apply in_map_iff in Hy.
  destruct Hy as (x & <- & Hx). apply char_lt_app.
  rewrite Forall_forall in Hall. auto.
Qed.

Lemma sorted_NoDup (l : list (list Z)) : StronglySorted char_lt l -> NoDup l.
Proof.
  intros H. induction H as [|a l Hs IH Hall]; constructor; auto.
  intros Hin. rewrite Forall_forall in Hall. apply (char_lt_irrefl a). auto.
Qed.

(** A list in the order of the code is in the order of the byte values
    when no value is negative. *)
Lemma sorted_raw (l : list (list Z)) :
  StronglySorted char_lt l -> Forall (Forall plain) l -> StronglySorted raw_lt l.
Proof.
  intros H. induction H as [|a l Hs IH Hall]; intros Hp; constructor.
  - apply IH. inversion Hp; assumption.
  - inversion Hp as [|? ? Ha Hl]; subst.
    apply Forall_forall. intros y Hy. unfold raw_lt.
    pose proof (proj1 (Forall_forall _ _) Hl y Hy) as Hpy.
    pose proof (proj1 (Forall_forall _ _) Hall y Hy) as Hlt.
    rewrite !map_raw_byte_plain by assumption.
    apply char_lt_lex_lt; [apply plain_above_zero|]; assumption.
Qed.

(** The members of a well-formed tree come out in strictly ascending
    order of their [char] values. *)
Lemma strings_sorted root : well_formed root -> StronglySorted char_lt (strings root).
Proof.
  intros Hwf. induction root as [|sib IHs child IHc substr].
  - constructor.
  - rewrite strings_node. apply sorted_app.
    + destruct (wf_node_cases _ _ _ Hwf) as [[Hne Hs]|(body & -> & Hs & ->)].
      * rewrite own_inner by auto. apply sorted_map_app, IHc.
        eapply wf_child; eauto.
      * rewrite own_leaf. repeat constructor.
    + apply IHs. eapply wf_sib; eauto.
    + intros x y Hx Hy. apply char_lt_first.
      rewrite (own_first _ _ _ _ Hwf Hx).
      apply (strings_head_gt sib (wf_sib _ _ _ Hwf) _ _ (wf_head_gt _ _ _ Hwf) Hy).
Qed.

(** ** Prefix match *)

(** In canonical form every node leads to a member. *)
Lemma canonical_inhabited root :
  well_formed root -> canonical root = true -> root <> NULL ->
  strings root <> [].
Proof.
  induction root as [|sib _ child IHc substr]; intros Hwf Hc Hn; [congruence|].
  rewrite strings_node. apply canonical_node in Hc. destruct Hc as (Hk & _ & Hcc).
  destruct (wf_node_cases _ _ _ Hwf) as [[Hne Hs]|(body & -> & Hs & ->)].
  - rewrite terminal_c_str in Hk by auto.
    destruct Hk as [Hk|Hk]; [discriminate|].
    rewrite own_inner by auto.
    assert (Hm : strings child <> []).
    { apply IHc; auto; [eapply wf_child; eauto|].
      intros ->. simpl in Hk. lia. }
    destruct (strings child); [congruence | discriminate].
  - rewrite own_leaf. discriminate.
Qed.




(** ** Iteration *)

Lemma read_from_spec s : forall b i n,
  c_str s -> (forall j, (j < length s)%nat -> b (i + j)%nat = nth j s 0) ->
  b (i + length s)%nat = 0 -> (length s < n)%nat ->
  read_from b i n = s.
Proof.
  induction s as [|a s IH]; intros b i n Hs Hb Hz Hn;
    (destruct n as [|n]; [simpl in Hn; lia|]); simpl in *.
  - rewrite Nat.add_0_r in Hz. rewrite Hz. reflexivity.
  - inversion Hs; subst. pose proof (Hb O ltac:(lia)) as H0.
    rewrite Nat.add_0_r in H0. simpl in H0. rewrite H0.
    destruct (Z.eqb_spec a 0); [unfold nonzero in *; lia|].
    f_equal. apply IH; auto.
    + intros j Hj. replace (S i + j)%nat with (i + S j)%nat by lia.
      rewrite Hb by lia. reflexivity.
    + replace (S i + length s)%nat with (i + S (length s))%nat by lia. exact Hz.
    + lia.
Qed.

(** What a callback reads in a buffer that holds the start of [s] and a
    terminator where [s] ends or at the last byte. *)
Lemma c_string_visit b n s :
  (1 <= n)%nat -> c_str s -> agrees b s (n - 1) ->
  b (Nat.min (length s) (n - 1)) = 0 ->
  c_string b n = firstn (n - 1) s.
Proof.
  intros Hn Hs Ha Hz. unfold c_string. apply read_from_spec.
  - apply c_str_firstn. exact Hs.
  - intros j Hj. rewrite length_firstn in Hj. simpl.
    rewrite nth_firstn. destruct (Nat.ltb_spec j (n - 1)); [|lia].
    apply Ha; lia.
  - rewrite length_firstn. simpl. rewrite Nat.min_comm. exact Hz.
  - rewrite length_firstn. lia.
Qed.

Lemma visit_in_turn_app {D} (f : radix_trie_forfn_t D) l1 l2 d :
  visit_in_turn f (l1 ++ l2) d =
  let (r, d') := visit_in_turn f l1 d in
  if r =? 0 then visit_in_turn f l2 d' else (r, d').
Proof.
  revert d. induction l1 as [|s l1 IH]; intros d; simpl; auto.
  destruct (f s d) as [r d']. destruct (r =? 0); auto.
Qed.

Lemma agrees_app_l b p q n : agrees b (p ++ q) n -> agrees b p n.
Proof.
  intros H j Hj Hn. rewrite H; auto.
  - apply app_nth1. exact Hj.
  - rewrite length_app. lia.
Qed.

Lemma agrees_memcpy b p substr n :
  agrees b p (n - 1) ->
  agrees (memcpy b (length p) substr
            (minzu (if (length p <? n)%nat then (n - length p)%nat else O)
                   (length substr)))
         (p ++ substr) (n - 1).
Proof.
  intros H j Hj Hn. unfold memcpy, minzu. rewrite length_app in Hj.
  destruct (Nat.leb_spec (length p) j) as [Hge|Hlt]; simpl.
  - destruct (Nat.ltb_spec (length p) n); [|lia].
    destruct (Nat.ltb_spec (n - length p) (length substr)).
    + destruct (Nat.ltb_spec j (length p + (n - length p))); [|lia].
      rewrite app_nth2 by lia. reflexivity.
    + destruct (Nat.ltb_spec j (length p + length substr)); [|lia].
      rewrite app_nth2 by lia. reflexivity.
  - rewrite app_nth1 by lia. apply H; lia.
Qed.

Lemma memcpy_outside b i src k n j :
  (n <= j)%nat ->
  memcpy b i src (minzu (if (i <? n)%nat then (n - i)%nat else O) k) j = b j.
Proof.
  intros Hj. unfold memcpy, minzu.
  destruct (Nat.leb_spec i j); simpl; auto.
  destruct (Nat.ltb_spec i n).
  - destruct (Nat.ltb_spec (n - i) k);
      match goal with |- context [(j <? ?x)%nat] =>
        destruct (Nat.ltb_spec j x); auto; lia end.
  - destruct (Nat.ltb_spec 0 k);
      match goal with |- context [(j <? ?x)%nat] =>
        destruct (Nat.ltb_spec j x); auto; lia end.
Qed.

(** [radix_trie_iterate] below the prefix [p]: the callback is given the
    members of the list in turn, each behind [p] and cut to the buffer,
    until it asks to stop; nothing is written past the buffer, and the
    bytes of [p] are still in place when the call returns. *)
Lemma iterate_spec {D} root : well_formed root ->
  forall (iter : radix_iter D) p,
  c_str p -> (1 <= len iter)%nat -> agrees (buf iter) p (len iter - 1) ->
  exists jumped iter',
    radix_trie_iterate root iter (length p) = (jumped, iter') /\
    fn iter' = fn iter /\ len iter' = len iter /\
    ((if jumped then 1 else 0), data iter') =
      visit_in_turn (fn iter)
        (map (fun s => firstn (len iter - 1) (p ++ s)) (strings root))
        (data iter) /\
    (forall j, (len iter <= j)%nat -> buf iter' j = buf iter j) /\
    (jumped = false -> agrees (buf iter') p (len iter - 1)).
Proof.
  induction root as [|sib IHs child IHc substr]; intros Hwf iter p Hp Hn Ha.
  - exists false, iter. simpl. repeat split; auto.
  - cbn [radix_trie_iterate]. fold (terminal substr).
    rewrite strings_node, map_app, visit_in_turn_app.
    pose proof (agrees_memcpy _ _ substr _ Ha) as Ha1.
    set (b1 := memcpy (buf iter) (length p) substr _) in *.
    assert (Hout1 : forall j, (len iter <= j)%nat -> b1 j = buf iter j)
      by (intros j Hj; apply memcpy_outside; exact Hj).
    destruct (wf_node_cases _ _ _ Hwf) as [[Hne Hs]|(body & -> & Hs & ->)].
    + rewrite terminal_c_str by auto. cbn iota.
      rewrite own_inner by auto. rewrite map_map.
      destruct (IHc (wf_child _ _ _ Hwf) (set_buf iter b1) (p ++ substr))
        as (j1 & iter3 & Hrun & Hfn & Hlen & Hvis & Hout & Hag); auto.
      { apply c_str_app. auto. }
      rewrite length_app in Hrun. rewrite Hrun. cbn [fn len data buf set_buf] in *.
      erewrite map_ext in Hvis by (intros; rewrite <- app_assoc; reflexivity).
      rewrite <- Hvis. destruct j1.
      * exists true, iter3. cbn. repeat split; auto; [|discriminate].
        intros j Hj. rewrite Hout, Hout1; auto.
      * cbn. specialize (Hag eq_refl). apply agrees_app_l in Hag.
        destruct (IHs (wf_sib _ _ _ Hwf) iter3 p)
          as (j2 & iter4 & Hrun2 & Hfn2 & Hlen2 & Hvis2 & Hout2 & Hag2);
          auto; try (rewrite Hlen; auto).
        rewrite Hfn, Hlen in *.
        exists j2, iter4. repeat split; auto; try congruence.
        intros j Hj. rewrite Hout2, Hout, Hout1; auto.
    + rewrite terminal_leaf. cbn iota. rewrite own_leaf.
      cbn [map visit_in_turn app fn len data buf set_buf set_data].
      set (b2 := store b1 (len iter - 1) 0).
      assert (Hag2 : agrees b2 p (len iter - 1)).
      { intros j Hj Hjn. unfold b2, store.
        destruct (Nat.eqb_spec j (len iter - 1)); [lia|].
        apply agrees_app_l in Ha1. apply Ha1; auto. }
      assert (Hout2 : forall j, (len iter <= j)%nat -> b2 j = buf iter j).
      { intros j Hj. unfold b2, store.
        destruct (Nat.eqb_spec j (len iter - 1)); [lia|]. auto. }
      assert (Hstr : c_string b2 (len iter) = firstn (len iter - 1) (p ++ body)).
      { apply c_string_visit; auto.
        - apply c_str_app. auto.
        - intros j Hj Hjn. unfold b2, store.
          destruct (Nat.eqb_spec j (len iter - 1)); [lia|].
          rewrite Ha1; auto.
          + rewrite app_assoc. apply app_nth1. exact Hj.
          + rewrite !length_app in *. simpl. lia.
        - unfold b2, store.
          destruct (Nat.eqb_spec (Nat.min (length (p ++ body)) (len iter - 1))
                                 (len iter - 1)) as [|Hlt]; auto.
          rewrite length_app in *.
          assert (Hl : (length p + length body < len iter - 1)%nat) by lia.
          rewrite Nat.min_l by lia.
          rewrite Ha1.
          + rewrite app_assoc. rewrite app_nth2 by (rewrite length_app; lia).
            rewrite length_app, Nat.sub_diag. reflexivity.
          + rewrite !length_app. simpl. lia.
          + lia. }
      rewrite Hstr.
      destruct (fn iter (firstn (len iter - 1) (p ++ body)) (data iter)) as [r d].
      destruct (Z.eqb_spec r 0) as [->|Hr]; cbn [negb].
      * destruct (IHs (wf_sib _ _ _ Hwf)
                    (set_data (set_buf (set_buf iter b1) b2) d) p)
          as (j2 & iter4 & Hrun2 & Hfn2 & Hlen2 & Hvis2 & Hout3 & Hag3); auto.
        cbn [fn len data buf set_buf set_data] in *.
        cbn [radix_trie_iterate]. rewrite Hrun2. change (0 =? 0) with true.
        cbn iota. exists j2, iter4. repeat split; auto.
        intros j Hj. rewrite Hout3, Hout2; auto.
      * eexists true, _. repeat split; auto; discriminate.
Qed.

(** [radix_trie_foreach] gives the callback the members in turn, each cut
    to the buffer, and writes nothing past the buffer. *)
Lemma foreach_spec {D} root (f : radix_trie_forfn_t D) d ubuf ulen sbuf :
  well_formed root -> (1 <= buffer_len ubuf ulen)%nat ->
  fst (radix_trie_foreach root f d ubuf ulen sbuf) =
    visit_in_turn f (map (firstn (buffer_len ubuf ulen - 1)) (strings root)) d /\
  forall j, (buffer_len ubuf ulen <= j)%nat ->
            snd (radix_trie_foreach root f d ubuf ulen sbuf) j =
            buffer_of ubuf sbuf j.
Proof.
  intros Hwf Hn. unfold radix_trie_foreach.
  cbn [len buf].
  destruct (Nat.eqb_spec (buffer_len ubuf ulen) 0) as [E|_]; [lia|].
  destruct (iterate_spec root Hwf
              {| fn := f; data := d; buf := buffer_of ubuf sbuf;
                 len := buffer_len ubuf ulen |} [])
    as (j1 & iter' & Hrun & _ & _ & Hvis & Hout & _); auto.
  - constructor.
  - intros j Hj. simpl in Hj. lia.
  - cbn [length] in Hrun. rewrite Hrun. cbn [fst snd fn len data buf] in *.
    split; auto.
Qed.

Lemma visit_in_turn_collect l seen :
  visit_in_turn collect l seen = (0, seen ++ l).
Proof.
  revert seen. induction l as [|s l IH]; intros seen; simpl.
  - rewrite app_nil_r. reflexivity.
  - rewrite IH, <- app_assoc. reflexivity.
Qed.

(** The strings a callback is shown are the members, cut to the buffer. *)
Lemma visited_spec root ubuf ulen sbuf :
  well_formed root -> (1 <= buffer_len ubuf ulen)%nat ->
  visited root ubuf ulen sbuf =
  map (firstn (buffer_len ubuf ulen - 1)) (strings root).
Proof.
  intros Hwf Hn. unfold visited.
  destruct (foreach_spec root collect [] ubuf ulen sbuf Hwf Hn) as [-> _].
  rewrite visit_in_turn_collect. reflexivity.
Qed.

Lemma canonical_no_single_child root :
  canonical root = true -> has_single_child root = false.
Proof.
  induction root as [|sib IHs child IHc substr]; auto.
  intros H. apply canonical_node in H. destruct H as (Hk & Hs & Hc).
  cbn [has_single_child]. rewrite IHs, IHc by auto. rewrite !orb_false_r.
  destruct Hk as [->|Hk]; simpl; auto.
  destruct (Nat.eqb_spec (count_sibs child) 1); [lia|]. apply andb_false_r.
Qed.


Lemma insert_all_spec l : forall root0 h root h',
  well_formed root0 -> Forall c_str l ->
  insert_all l root0 h = Some (root, h') ->
  well_formed root /\
  forall s, In s (strings root) <-> In s l \/ In s (strings root0).
Proof.
  induction l as [|str l IH]; intros root0 h root h' Hwf Hl Hall; simpl in *.
  - injection Hall as <- <-. split; auto. intros s. simpl. tauto.
  - inversion Hl as [|? ? Hs Hl']; subst.
    pose proof (insert_wf root0 str h Hwf Hs) as Hwf1.
    pose proof (insert_strings root0 str h Hwf Hs) as [Hok _].
    destruct (radix_trie_insert root0 str h) as [[res root1] h1].
    cbn [fst snd] in *.
    destruct (Z.eqb_spec res 0) as [->|]; [|discriminate].
    destruct (IH _ _ _ _ Hwf1 Hl' Hall) as [Hw Hin]. split; auto.
    intros s. rewrite Hin, Hok by reflexivity. intuition congruence.
Qed.

Lemma map_firstn_id (n : nat) (l : list (list Z)) :
  (forall s, In s l -> (length s <= n)%nat) -> map (firstn n) l = l.
Proof.
  intros H. rewrite <- (map_id l) at 2. apply map_ext_in.
  intros s Hs. apply firstn_all2. auto.
Qed.

(** What the record of calls of a traced callback looks like. *)
Lemma visit_traced {D} (f : radix_trie_forfn_t D) l : forall d calls0,
  exists ret d' calls k,
    visit_in_turn (traced f) l (d, calls0) = (ret, (d', calls0 ++ calls)) /\
    (k <= length l)%nat /\
    map fst calls = firstn k l /\
    Forall (fun c => snd c = 0) (removelast calls) /\
    ((ret = 0 /\ k = length l /\ Forall (fun c => snd c = 0) calls) \/
     (ret = 1 /\ calls <> [] /\ snd (last calls ([], 0)) <> 0)).
Proof.
  induction l as [|s l IH]; intros d calls0.
  - exists 0, d, [], O. simpl. rewrite app_nil_r.
    split; [reflexivity|]. split; [lia|]. split; [reflexivity|].
    split; [constructor|]. left. auto.
  - simpl. unfold traced at 1. cbn [fst snd].
    destruct (f s d) as [r d1]. destruct (Z.eqb_spec r 0) as [->|Hr].
    + destruct (IH d1 (calls0 ++ [(s, 0)]))
        as (ret & d' & calls & k & E & Hk & Hm & Hz & Hend).
      exists ret, d', ((s, 0) :: calls), (S k). rewrite E, <- app_assoc.
      split; [reflexivity|]. split; [simpl; lia|].
      split; [simpl; rewrite Hm; reflexivity|]. split.
      * destruct calls as [|c calls]; [constructor|].
        change (removelast ((s, 0) :: c :: calls))
          with ((s, 0) :: removelast (c :: calls)).
        constructor; auto.
      * destruct Hend as [(-> & -> & Hall)|(-> & Hne & Hl)]; [left | right].
        -- split; [reflexivity|]. split; [reflexivity|]. constructor; auto.
        -- split; [reflexivity|]. split; [discriminate|].
           destruct calls; [congruence | exact Hl].
    + exists 1, d1, [(s, r)], 1%nat.
      split; [reflexivity|]. split; [simpl; lia|]. split; [reflexivity|].
      split; [constructor|]. right.
      split; [reflexivity|]. split; [discriminate | exact Hr].
Qed.

(** ** Members that are prefixes of other members *)






(** * Further properties of the code *)

(** ** Helpers *)

Lemma lsfind_relink passed pos chr :
  Forall (fun p => substr_at (snd p) 0 < chr) passed -> head_ge chr pos ->
  radix_trie_lsfind (relink passed pos) chr = (passed, pos).
Proof.
  induction passed as [|[c s] passed IH]; intros Hp Hg.
  - destruct pos as [|sib child substr]; simpl in *; auto.
    destruct (Z.ltb_spec (substr_at substr 0) chr); auto. lia.
  - inversion Hp as [|? ? Hlt Hp']; subst. simpl in *.
    destruct (Z.ltb_spec (substr_at s 0) chr); [|lia].
    rewrite IH; auto.
Qed.

Lemma lookup_same_members r1 r2 s :
  well_formed r1 -> well_formed r2 -> c_str s ->
  (In s (strings r1) <-> In s (strings r2)) ->
  radix_trie_lookup r1 s = radix_trie_lookup r2 s.
Proof.
  intros H1 H2 Hs Hiff.
  pose proof (lookup_correct r1 s H1 Hs) as L1.
  pose proof (lookup_correct r2 s H2 Hs) as L2.
  destruct (radix_trie_lookup r1 s), (radix_trie_lookup r2 s); auto.
  - symmetry. apply L2, Hiff, L1. reflexivity.
  - apply L1, Hiff, L2. reflexivity.
Qed.

(** Inserting a member changes nothing and calls no allocator. *)
Lemma insertion_member root str h r :
  insertion root str h r -> well_formed root -> In str (strings root) ->
  r = (0, root, h).
Proof.
  intros Hi. induction Hi as
    [root str h passed pos res pos' h1 Hls Hgt Hm
    |root str h passed sib Hls
    |root p q t h h1 passed sib child Hls Hp Hsp Hq Hqt Ha
    |root p q t h h1 ok h2 passed sib child res child' h3 Hls Hp Hsp Hq Hqt Ha Ha2 Hi IH
    |root substr t h passed sib child res child' h1 Hls Hne Hsub Hi IH];
    intros Hwf Hin; auto.
  - exfalso. apply (strings_lsfind root str passed pos Hwf Hls) in Hin.
    destruct (lsfind_spec _ _ _ _ Hls) as (E & _). subst root.
    apply wf_relink_inv in Hwf.
    destruct pos as [|sib child substr]; auto.
    apply (own_first _ _ _ _ Hwf) in Hin. simpl in Hgt. lia.
  - exfalso. apply (strings_lsfind root _ passed _ Hwf Hls) in Hin.
    destruct (lsfind_spec _ _ _ _ Hls) as (E & _). subst root.
    apply wf_relink_inv in Hwf.
    rewrite own_app in Hin by auto. apply in_map_iff in Hin.
    destruct Hin as (x & E & Hx). apply app_inv_head in E. subst x.
    apply (own_first NULL child q t) in Hx; [congruence|].
    eapply wf_split_rest; eauto.
  - exfalso. apply (strings_lsfind root _ passed _ Hwf Hls) in Hin.
    destruct (lsfind_spec _ _ _ _ Hls) as (E & _). subst root.
    apply wf_relink_inv in Hwf.
    rewrite own_app in Hin by auto. apply in_map_iff in Hin.
    destruct Hin as (x & E & Hx). apply app_inv_head in E. subst x.
    apply (own_first NULL child q t) in Hx; [congruence|].
    eapply wf_split_rest; eauto.
  - apply (strings_lsfind root _ passed _ Hwf Hls) in Hin.
    destruct (lsfind_spec _ _ _ _ Hls) as (E & _). subst root.
    apply wf_relink_inv in Hwf.
    rewrite own_inner in Hin by auto. apply in_map_iff in Hin.
    destruct Hin as (x & E & Hx). apply app_inv_head in E. subst x.
    specialize (IH (wf_child _ _ _ Hwf) Hx). injection IH as -> -> ->.
    reflexivity.
Qed.

(** With no sibling that starts with the next byte, the loop ends in
    [radix_trie_make_suffix] at the position found. *)
Lemma insertion_fresh_inv root str h r :
  insertion root str h r ->
  head_gt (str_at str 0) (snd (radix_trie_lsfind root (str_at str 0))) ->
  exists passed pos res pos' h1,
    radix_trie_lsfind root (str_at str 0) = (passed, pos) /\
    radix_trie_make_suffix pos str h = (res, pos', h1) /\
    r = (res, relink passed pos', h1).
Proof.
  intros Hi Hgt. inversion Hi; subst;
    match goal with H : radix_trie_lsfind _ _ = _ |- _ =>
      rewrite H in Hgt; simpl in Hgt end.
  - eauto 10.
  - rewrite str_at_leaf in Hgt. lia.
  - rewrite substr_at_app_l in Hgt by auto.
    unfold str_at, substr_at in Hgt. destruct p; [congruence | simpl in Hgt; lia].
  - rewrite substr_at_app_l in Hgt by auto.
    unfold str_at, substr_at in Hgt. destruct p; [congruence | simpl in Hgt; lia].
  - unfold str_at, substr_at in Hgt.
    destruct substr; [congruence | simpl in Hgt; lia].
Qed.

Lemma single_node_fresh child q t :
  substr_at q 0 <> str_at t 0 ->
  head_gt (str_at t 0)
    (snd (radix_trie_lsfind (Node NULL child q) (str_at t 0))).
Proof.
  intros Hne. simpl.
  destruct (Z.ltb_spec (substr_at q 0) (str_at t 0)); simpl; auto. lia.
Qed.


(** What a failed insertion leaves: the tree as it was when the first
    allocation of the call failed; otherwise the node was split and the
    allocation of the suffix node failed, and the split stays. *)
Lemma insertion_failure_shape root str h r :
  insertion root str h r -> fst (fst r) <> 0 ->
  (fst (alloc h) = false /\ snd (fst r) = root) \/
  (fst (alloc h) = true /\ split_left root (snd (fst r))).
Proof.
  intros Hi. induction Hi as
    [root str h passed pos res pos' h1 Hls Hgt Hm
    |root str h passed sib Hls
    |root p q t h h1 passed sib child Hls Hp Hsp Hq Hqt Ha
    |root p q t h h1 ok h2 passed sib child res child' h3 Hls Hp Hsp Hq Hqt Ha Ha2 Hi IH
    |root substr t h passed sib child res child' h1 Hls Hne Hsub Hi IH];
    cbn [fst snd]; intros Hres; try congruence.
  - left. destruct (lsfind_spec _ _ _ _ Hls) as (E & _).
    destruct (make_suffix_cases _ _ _ _ _ _ Hm) as [(-> & _)|(_ & -> & Ha)];
      [congruence|].
    rewrite Ha. split; [reflexivity | symmetry; exact E].
  - left. rewrite Ha. split; reflexivity.
  - right. rewrite Ha. split; [reflexivity|].
    destruct (lsfind_spec _ _ _ _ Hls) as (E & _).
    destruct (insertion_fresh_inv _ _ _ _ Hi (single_node_fresh _ _ _ Hqt))
      as (passed2 & pos2 & res2 & pos2' & h4 & Hls2 & Hm & E2).
    injection E2 as -> -> ->.
    destruct (make_suffix_cases _ _ _ _ _ _ Hm) as [(-> & _)|(_ & -> & _)];
      [congruence|].
    destruct (lsfind_spec _ _ _ _ Hls2) as (<- & _).
    rewrite E. apply sl_here; assumption.
  - destruct (lsfind_spec _ _ _ _ Hls) as (E & _).
    destruct (IH Hres) as [[Ha Hsame]|[Ha Hsplit]]; cbn [fst snd] in *.
    + left. split; [exact Ha|]. rewrite Hsame. symmetry. exact E.
    + right. split; [exact Ha|]. rewrite E. apply sl_below; assumption.
Qed.

Lemma has_single_child_relink passed t :
  has_single_child t = true -> has_single_child (relink passed t) = true.
Proof.
  intros H. induction passed as [|[c s] passed IH]; simpl; auto.
  rewrite IH. rewrite orb_true_r. reflexivity.
Qed.

Lemma relink_inj passed a b : relink passed a = relink passed b -> a = b.
Proof.
  induction passed as [|[c s] passed IH]; simpl; auto.
  intros E. injection E as E. auto.
Qed.

(** The node that a split leaves has a single child, and the tree is not
    the one it was. *)
Lemma split_left_single_child root root' :
  split_left root root' -> has_single_child root' = true.
Proof.
  induction 1 as [passed sib child p q Hp Hsp Hq
                 |passed sib child child' substr Hne Hs _ IH];
    apply has_single_child_relink; cbn [has_single_child].
  - rewrite terminal_c_str by assumption. reflexivity.
  - rewrite IH. apply orb_true_r.
Qed.

Lemma split_left_changes root root' : split_left root root' -> root' <> root.
Proof.
  induction 1 as [passed sib child p q Hp Hsp Hq
                 |passed sib child child' substr Hne Hs _ IH];
    intros E; apply relink_inj in E.
  - injection E as _ E. rewrite <- (app_nil_r p) in E at 1.
    apply app_inv_head in E. congruence.
  - injection E as E. auto.
Qed.


Lemma skipn_exact (a b : list Z) : skipn (length a) (a ++ b) = b.
Proof.
  rewrite skipn_app, skipn_all, Nat.sub_diag. reflexivity.
Qed.

Lemma leaf_at_end (str : list Z) :
  substr_at (str ++ [0]) (length str) = str_at str (length str).
Proof.
  unfold substr_at, str_at. rewrite app_nth2, Nat.sub_diag by lia.
  simpl. symmetry. apply nth_overflow. lia.
Qed.

(** The loop of [radix_trie_delete] gives what a derivation says. *)
Lemma deletion_complete fuel : forall root str h r,
  deletion root str h r -> well_formed root -> c_str str ->
  (depth root < fuel)%nat ->
  delete_loop fuel root str h = Some r.
Proof.
  induction fuel as [|fuel IH]; intros root str h r Hd Hwf Hs Hf; [lia|].
  inversion Hd as
    [root0 str0 h0 Hin
    |root0 str0 h0 passed sib Hls
    |root0 substr t h0 passed sib child child' lost res parent h1 Hls Hne Hsub Hd' Hfu
    |root0 substr t h0 passed sib child child' lost res h1 Hls Hne Hsub Hd']; subst.
  - destruct (delete_loop_total (S fuel) root str h Hf) as (r0 & Hr0).
    rewrite Hr0. f_equal.
    apply (deletion_absent root str h r0); auto.
    apply (delete_loop_deletion (S fuel)); auto.
  - cbn [delete_loop]. rewrite Hls. rewrite diff_leaf by auto.
    rewrite leaf_at_end, Z.eqb_refl, length_app.
    destruct (Nat.ltb_spec (length str) (length str + length [0])); [|simpl in *; lia].
    reflexivity.
  - destruct (lsfind_spec _ _ _ _ Hls) as (E & _ & _ & Hdp).
    pose proof Hwf as Hwp. rewrite E in Hwp. apply wf_relink_inv in Hwp.
    apply c_str_app in Hs. destruct Hs as [_ Ht].
    cbn [delete_loop]. rewrite Hls. rewrite diff_self by auto.
    rewrite Nat.ltb_irrefl, skipn_exact.
    rewrite (IH child t h _ Hd'); auto.
    + rewrite Hfu. reflexivity.
    + eapply wf_child; eauto.
    + simpl in Hdp. lia.
  - destruct (lsfind_spec _ _ _ _ Hls) as (E & _ & _ & Hdp).
    pose proof Hwf as Hwp. rewrite E in Hwp. apply wf_relink_inv in Hwp.
    apply c_str_app in Hs. destruct Hs as [_ Ht].
    cbn [delete_loop]. rewrite Hls. rewrite diff_self by auto.
    rewrite Nat.ltb_irrefl, skipn_exact.
    rewrite (IH child t h _ Hd'); auto.
    + eapply wf_child; eauto.
    + simpl in Hdp. lia.
Qed.

Lemma delete_of_deletion root str h st root' lost :
  deletion root str h (st, root', lost) -> well_formed root -> c_str str ->
  radix_trie_delete root str h =
  match st with
  | Pending => (0, root', h)
  | Done res h1 => (res, root', h1)
  end.
Proof.
  intros Hd Hwf Hs. unfold radix_trie_delete, radix_trie_delete_full.
  rewrite (deletion_complete (S (depth root)) _ _ _ _ Hd Hwf Hs) by lia.
  destruct st; reflexivity.
Qed.

(** [radix_trie_delete] calls the allocator at most once, for the
    [realloc] of a fuse, and returns -1 exactly when that call fails. *)
Lemma deletion_alloc root str h r :
  deletion root str h r ->
  match fst (fst r) with
  | Pending => True
  | Done res h1 =>
      (res = 0 /\ (h1 = h \/ alloc h = (true, h1))) \/
      (res = -1 /\ alloc h = (false, h1))
  end.
Proof.
  intros Hd. induction Hd as
    [root str h Hin
    |root str h passed sib Hls
    |root substr t h passed sib child child' lost res parent h1 Hls Hne Hsub Hd IH Hf
    |root substr t h passed sib child child' lost res h1 Hls Hne Hsub Hd IH];
    cbn [fst snd] in *; auto.
  destruct (fuse_cases _ _ _ _ _ _ _ Hf)
    as [(-> & _ & -> & _)|[(-> & _ & Ha & _)|(-> & Ha & _)]]; auto.
Qed.

(** A string just linked in as a suffix node is found and unlinked by
    the loop of [radix_trie_delete]. *)
Lemma suffix_then_deletion root str passed pos h :
  well_formed root -> c_str str ->
  radix_trie_lsfind root (str_at str 0) = (passed, pos) ->
  deletion (relink passed (Node pos NULL (str ++ [0]))) str h (Pending, root, NULL).
Proof.
  intros Hwf Hs Hls. destruct (lsfind_spec _ _ _ _ Hls) as (E & Hp & Hg & _).
  rewrite E. apply del_here. apply lsfind_relink; auto.
  simpl. rewrite str_at_leaf. lia.
Qed.

(** In canonical form, deleting a string that was just inserted gives
    back the very tree there was before, when the [realloc] of the fuse
    succeeds. *)
Lemma insertion_then_deletion root str h r :
  insertion root str h r -> well_formed root -> c_str str ->
  canonical root = true -> ~ In str (strings root) -> fst (fst r) = 0 ->
  forall h', fst (alloc h') = true ->
  exists st, deletion (snd (fst r)) str h' (st, root, NULL) /\
             (st = Pending \/ exists h'', st = Done 0 h'').
Proof.
  intros Hi. induction Hi as
    [root str h passed pos res pos' h1 Hls Hgt Hm
    |root str h passed sib Hls
    |root p q t h h1 passed sib child Hls Hp Hsp Hq Hqt Ha
    |root p q t h h1 ok h2 passed sib child res child' h3 Hls Hp Hsp Hq Hqt Ha Ha2 Hi IH
    |root substr t h passed sib child res child' h1 Hls Hne Hsub Hi IH];
    cbn [fst snd]; intros Hwf Hs Hc Hnin Hres h' Hh'; try congruence.
  - destruct (make_suffix_cases _ _ _ _ _ _ Hm) as [(_ & -> & _)|(? & _)];
      [|lia].
    exists Pending. split; auto. apply suffix_then_deletion; auto.
  - exfalso. apply Hnin.
    destruct (lsfind_spec _ _ _ _ Hls) as (E & _). subst root.
    rewrite strings_relink, strings_node, own_leaf.
    apply in_or_app. right. left. reflexivity.
  - clear IH. destruct (lsfind_spec _ _ _ _ Hls) as (E & Hpa & Hg & _).
    pose proof Hwf as Hwp. rewrite E in Hwp. apply wf_relink_inv in Hwp.
    pose proof (wf_split_rest _ _ _ _ Hwp Hq) as Hwr.
    apply c_str_app in Hs. destruct Hs as [_ Ht].
    destruct (insertion_fresh_inv _ _ _ _ Hi (single_node_fresh _ _ _ Hqt))
      as (passed2 & pos2 & res2 & pos2' & h4 & Hls2 & Hm & Er).
    injection Er as -> -> ->.
    destruct (make_suffix_cases _ _ _ _ _ _ Hm) as [(_ & -> & _)|(? & _)];
      [|lia].
    pose proof (suffix_then_deletion _ t passed2 pos2 h' Hwr Ht Hls2) as Hd.
    destruct (alloc h') as [ok' h''] eqn:Ha'. simpl in Hh'. subst ok'.
    exists (Done 0 h''). split; [|eauto].
    rewrite E. eapply del_parent; eauto.
    + apply lsfind_relink; auto. simpl. rewrite str_at_app_first by auto. lia.
    + unfold radix_trie_fuse. rewrite Ha'. reflexivity.
  - destruct (lsfind_spec _ _ _ _ Hls) as (E & Hpa & Hg & _).
    pose proof Hwf as Hwp. rewrite E in Hwp. apply wf_relink_inv in Hwp.
    apply c_str_app in Hs. destruct Hs as [_ Ht].
    pose proof Hc as Hcn. rewrite E in Hcn. apply canonical_relink_inv in Hcn.
    apply canonical_node in Hcn. destruct Hcn as (Hk & _ & Hcc).
    rewrite terminal_c_str in Hk by auto.
    destruct Hk as [Hk|Hk]; [discriminate|].
    assert (Hnc : ~ In t (strings child)).
    { intros Hin. apply Hnin. rewrite E, strings_relink, strings_node, own_inner by auto.
      apply in_or_app. right. apply in_or_app. left. apply in_map. exact Hin. }
    destruct (IH (wf_child _ _ _ Hwp) Ht Hcc Hnc Hres h' Hh')
      as (st & Hd & [-> |(h'' & ->)]).
    + exists (Done 0 h'). split; [|eauto].
      rewrite E.
      apply (del_parent _ substr t h' passed sib child' child NULL 0
               (Node sib child substr) h'); auto.
      * apply lsfind_relink; auto.
      * destruct child as [|[|s2 c2 b2] c1 b1]; simpl in Hk; try lia.
        reflexivity.
    + exists (Done 0 h''). split; [|eauto].
      rewrite E.
      apply (del_above _ substr t h' passed sib child' child NULL 0 h''); auto.
      apply lsfind_relink; auto.
Qed.

(** A member makes every prefix of it match, in any well-formed tree. *)
Lemma match_loop_complete fuel : forall root p t,
  (depth root < fuel)%nat -> well_formed root -> c_str (p ++ t) ->
  In (p ++ t) (strings root) -> seen_by p (p ++ t) ->
  match_loop fuel root p = Some true.
Proof.
  induction fuel as [|fuel IH]; intros root p t Hfuel Hwf Hpt Hin Hseen; [lia|].
  pose proof Hpt as Hpt'. apply c_str_app in Hpt'. destruct Hpt' as [Hp Ht].
  cbn [match_loop]. destruct p as [|a p'].
  - change (str_at [] 0) with 0. specialize (Hseen eq_refl).
    destruct (radix_trie_lsfind root 0) as [passed pos] eqn:Hls.
    destruct (lsfind_spec _ _ _ _ Hls) as (E & Hpass & _ & _).
    assert (Hwp : well_formed pos) by (subst root; eapply wf_relink_inv; eauto).
    rewrite E, strings_relink in Hin. apply in_app_or in Hin.
    destruct Hin as [Hin|Hin].
    { exfalso. rewrite E in Hwf.
      pose proof (passed_strings_lt _ _ _ _ Hwf Hpass Hin). simpl in *. lia. }
    cbn [snd]. destruct pos as [|sib child substr]; [destruct Hin|].
    simpl. destruct substr as [|c substr]; [|reflexivity].
    exfalso. destruct (wf_node_cases _ _ _ Hwp) as [[H _]|(body & E' & _)];
      [congruence | destruct body; discriminate].
  - destruct (radix_trie_lsfind root (str_at (a :: p') 0)) as [passed pos] eqn:Hls.
    change (str_at (a :: p') 0) with (str_at ((a :: p') ++ t) 0) in Hls.
    apply (strings_lsfind root _ passed pos Hwf Hls) in Hin.
    destruct (lsfind_spec _ _ _ _ Hls) as (E & _ & _ & Hdp).
    assert (Hwp : well_formed pos) by (subst root; eapply wf_relink_inv; eauto).
    cbn [snd]. destruct pos as [|sib child substr]; [destruct Hin|].
    set (p := a :: p') in *.
    pose proof (diff_le_substr substr p) as Hdle.
    pose proof (diff_le_str substr p) as Hdlp.
    destruct (Nat.ltb_spec (radix_trie_diff substr p) (length substr)) as [Hlt|Hfull].
    + f_equal. apply Z.eqb_eq.
      destruct (Nat.eq_dec (radix_trie_diff substr p) (length p)) as [Hd|Hd].
      { rewrite Hd. unfold str_at. apply nth_overflow. lia. }
      exfalso.
      assert (Hnz : str_at p (radix_trie_diff substr p) <> 0).
      { unfold str_at. apply c_str_no_zero; auto. lia. }
      assert (Hne : substr_at substr (radix_trie_diff substr p) <>
                    str_at p (radix_trie_diff substr p)).
      { intros Heq. apply Hnz. apply diff_stop; auto. }
      apply Hne. unfold substr_at, str_at.
      destruct (wf_node_cases _ _ _ Hwp) as [[Hne' Hs]|(body & -> & Hs & ->)].
      * rewrite own_inner in Hin by auto. apply in_map_iff in Hin.
        destruct Hin as (x & Ex & _).
        rewrite <- (app_nth1 substr x 0) by lia. rewrite Ex.
        rewrite app_nth1 by lia. reflexivity.
      * rewrite own_leaf in Hin. destruct Hin as [->|[]].
        set (d := radix_trie_diff _ p) in *.
        rewrite <- app_assoc. rewrite app_nth1 by lia. reflexivity.
    + assert (Hd : radix_trie_diff substr p = length substr) by lia.
      destruct (diff_full _ _ Hp Hd) as [Estr Hsub]. rewrite Hd.
      assert (Hne : substr <> []).
      { destruct (wf_node_cases _ _ _ Hwp) as [[Hne _]|(body & -> & _)]; auto.
        exfalso. eapply c_str_not_leaf; eauto. }
      destruct (Z.eqb_spec (str_at (skipn (length substr) p) 0) 0) as [|Hnz];
        [reflexivity|].
      rewrite own_inner in Hin by auto. apply in_map_iff in Hin.
      destruct Hin as (x & Ex & Hx).
      rewrite Estr, <- app_assoc in Ex. apply app_inv_head in Ex. subst x.
      apply (IH child _ t); auto.
      * simpl in Hdp. lia.
      * eapply wf_child; eauto.
      * apply c_str_app. split; auto. apply c_str_skipn. exact Hp.
      * intros Hnil. rewrite Hnil in Hnz. exfalso. apply Hnz. reflexivity.
Qed.

Lemma diff_nonzero substr str : forall i,
  (i < radix_trie_diff substr str)%nat -> nth i str 0 <> 0.
Proof.
  revert str. induction substr as [|a substr IH]; intros [|b str] i; simpl;
    try lia.
  destruct (Z.eqb_spec a b) as [->|]; simpl; try lia.
  destruct (Z.eqb_spec b 0); simpl; try lia.
  destruct i as [|i]; auto. intros Hi. apply IH. lia.
Qed.

(** ** The canonical form is unique *)

Lemma own_inhabited sib child substr :
  well_formed (Node sib child substr) ->
  canonical (Node sib child substr) = true ->
  own child substr <> [].
Proof.
  intros Hwf Hc. apply canonical_node in Hc. destruct Hc as (Hk & _ & Hcc).
  destruct (wf_node_cases _ _ _ Hwf) as [[Hne Hs]|(body & -> & Hs & ->)].
  - rewrite terminal_c_str in Hk by auto.
    destruct Hk as [Hk|Hk]; [discriminate|]. rewrite own_inner by auto.
    assert (Hm : strings child <> []).
    { apply canonical_inhabited; auto; [eapply wf_child; eauto|].
      intros ->. simpl in Hk. lia. }
    destruct (strings child); [congruence | discriminate].
  - rewrite own_leaf. discriminate.
Qed.

(** A list of two nodes or more holds members that start differently. *)
Lemma two_heads t :
  well_formed t -> canonical t = true -> (2 <= count_sibs t)%nat ->
  exists x y, In x (strings t) /\ In y (strings t) /\ str_at x 0 <> str_at y 0.
Proof.
  intros Hwf Hc Hn.
  destruct t as [|[|sib2 c2 s2] c1 s1]; simpl in Hn; try lia.
  pose proof (wf_sib _ _ _ Hwf) as Hwf2.
  pose proof Hc as Hc'. apply canonical_node in Hc'. destruct Hc' as (_ & Hc2 & _).
  pose proof (own_inhabited _ _ _ Hwf Hc) as H1.
  pose proof (own_inhabited _ _ _ Hwf2 Hc2) as H2.
  destruct (own c1 s1) as [|x l1] eqn:E1; [congruence|].
  destruct (own c2 s2) as [|y l2] eqn:E2; [congruence|].
  assert (Hx : In x (own c1 s1)) by (rewrite E1; left; auto).
  assert (Hy : In y (own c2 s2)) by (rewrite E2; left; auto).
  exists x, y. rewrite !strings_node. repeat split.
  - apply in_or_app. left. exact Hx.
  - apply in_or_app. right. apply in_or_app. left. exact Hy.
  - rewrite (own_first _ _ _ _ Hwf Hx), (own_first _ _ _ _ Hwf2 Hy).
    pose proof (wf_head_gt _ _ _ Hwf) as Hg. simpl in Hg. lia.
Qed.

Lemma split_by_first_byte (c : Z) (l1 l2 m1 m2 : list (list Z)) :
  l1 ++ m1 = l2 ++ m2 ->
  (forall x, In x l1 -> str_at x 0 = c) -> (forall x, In x l2 -> str_at x 0 = c) ->
  (forall x, In x m1 -> c < str_at x 0) -> (forall x, In x m2 -> c < str_at x 0) ->
  l1 = l2 /\ m1 = m2.
Proof.
  revert l2. induction l1 as [|a l1 IH]; intros [|b l2] E H1 H2 G1 G2; simpl in *.
  - auto.
  - exfalso. subst m1. specialize (G1 b (or_introl eq_refl)).
    specialize (H2 b (or_introl eq_refl)). lia.
  - exfalso. subst m2. specialize (G2 a (or_introl eq_refl)).
    specialize (H1 a (or_introl eq_refl)). lia.
  - injection E as -> E. destruct (IH l2 E) as [-> ->]; auto.
Qed.

Lemma map_app_inj (s : list Z) (l1 l2 : list (list Z)) :
  map (app s) l1 = map (app s) l2 -> l1 = l2.
Proof.
  revert l2. induction l1 as [|a l1 IH]; intros [|b l2] E; simpl in *;
    try discriminate; auto.
  injection E as E1 E2. apply app_inv_head in E1. subst. f_equal. auto.
Qed.

(** When every member below a node also starts with a longer substring,
    the children cannot start differently. *)
Lemma longer_prefix_one_head (s e : list Z) (l1 l2 : list (list Z)) :
  e <> [] -> map (app s) l1 = map (app (s ++ e)) l2 ->
  forall x y, In x l1 -> In y l1 -> str_at x 0 = str_at y 0.
Proof.
  intros He E.
  assert (H : forall x, In x l1 -> exists z, x = e ++ z).
  { intros x Hx. apply (in_map (app s)) in Hx. rewrite E in Hx.
    apply in_map_iff in Hx. destruct Hx as (z & Ez & _).
    rewrite <- app_assoc in Ez. apply app_inv_head in Ez. eauto. }
  intros x y Hx Hy. destruct (H x Hx) as (zx & ->). destruct (H y Hy) as (zy & ->).
  unfold str_at. destruct e; [congruence | reflexivity].
Qed.

Lemma canonical_unique r1 : forall r2,
  well_formed r1 -> well_formed r2 ->
  canonical r1 = true -> canonical r2 = true ->
  strings r1 = strings r2 -> r1 = r2.
Proof.
  induction r1 as [|sib1 IHs child1 IHc s1]; intros r2 Hw1 Hw2 Hc1 Hc2 E.
  - destruct r2 as [|sib2 child2 s2]; auto. exfalso.
    apply (canonical_inhabited _ Hw2 Hc2); [discriminate | auto].
  - destruct r2 as [|sib2 child2 s2].
    { exfalso. apply (canonical_inhabited _ Hw1 Hc1); [discriminate | auto]. }
    rewrite !strings_node in E.
    pose proof (own_inhabited _ _ _ Hw1 Hc1) as Hn1.
    pose proof (own_inhabited _ _ _ Hw2 Hc2) as Hn2.
    (* the two head nodes start with the same byte *)
    assert (Hhd : substr_at s1 0 = substr_at s2 0).
    { destruct (own child1 s1) as [|x l1] eqn:E1; [congruence|].
      destruct (own child2 s2) as [|y l2] eqn:E2; [congruence|].
      simpl in E. injection E as Exy _. subst y.
      rewrite <- (own_first sib1 child1 s1 x Hw1) by (rewrite E1; left; auto).
      rewrite <- (own_first sib2 child2 s2 x Hw2) by (rewrite E2; left; auto).
      reflexivity. }
    destruct (split_by_first_byte (substr_at s1 0) _ _ _ _ E) as [Eown Esib].
    { intros x Hx. apply (own_first _ _ _ _ Hw1 Hx). }
    { intros x Hx. rewrite Hhd. apply (own_first _ _ _ _ Hw2 Hx). }
    { intros x Hx.
      apply (strings_head_gt sib1 (wf_sib _ _ _ Hw1) _ _ (wf_head_gt _ _ _ Hw1) Hx). }
    { intros x Hx. rewrite Hhd.
      apply (strings_head_gt sib2 (wf_sib _ _ _ Hw2) _ _ (wf_head_gt _ _ _ Hw2) Hx). }
    pose proof Hc1 as Hk1. apply canonical_node in Hk1.
    destruct Hk1 as (Hk1 & Hcs1 & Hcc1).
    pose proof Hc2 as Hk2. apply canonical_node in Hk2.
    destruct Hk2 as (Hk2 & Hcs2 & Hcc2).
    assert (Es : sib1 = sib2).
    { apply IHs; auto; eapply wf_sib; eauto. }
    subst sib2.
    destruct (wf_node_cases _ _ _ Hw1) as [[Hne1 Hs1]|(b1 & -> & Hb1 & ->)];
      destruct (wf_node_cases _ _ _ Hw2) as [[Hne2 Hs2]|(b2 & -> & Hb2 & ->)].
    + (* two inner nodes *)
      rewrite terminal_c_str in Hk1, Hk2 by auto.
      destruct Hk1 as [Hk1|Hk1]; [discriminate|].
      destruct Hk2 as [Hk2|Hk2]; [discriminate|].
      rewrite !own_inner in Eown by auto.
      destruct (two_heads child1 (wf_child _ _ _ Hw1) Hcc1 Hk1)
        as (x1 & y1 & Hx1 & Hy1 & Hd1).
      destruct (two_heads child2 (wf_child _ _ _ Hw2) Hcc2 Hk2)
        as (x2 & y2 & Hx2 & Hy2 & Hd2).
      assert (Ess : s1 = s2).
      { assert (Hin : In (s1 ++ x1) (map (app s2) (strings child2))).
        { rewrite <- Eown. apply in_map. exact Hx1. }
        apply in_map_iff in Hin. destruct Hin as (z & Ez & _).
        symmetry in Ez. apply app_eq_app in Ez.
        destruct Ez as (e & [[E1 _]|[E2 _]]).
        - destruct e as [|c e]; [rewrite app_nil_r in E1; exact E1|]. exfalso.
          apply Hd2. rewrite E1 in Eown.
          apply (longer_prefix_one_head s2 (c :: e) (strings child2) (strings child1));
            [discriminate | symmetry; exact Eown | exact Hx2 | exact Hy2].
        - destruct e as [|c e]; [rewrite app_nil_r in E2; symmetry; exact E2|].
          exfalso. apply Hd1. rewrite E2 in Eown.
          apply (longer_prefix_one_head s1 (c :: e) (strings child1) (strings child2));
            [discriminate | exact Eown | exact Hx1 | exact Hy1]. }
      subst s2. apply map_app_inj in Eown. f_equal.
      apply IHc; auto; eapply wf_child; eauto.
    + (* an inner node and a leaf *)
      exfalso. rewrite terminal_c_str in Hk1 by auto.
      destruct Hk1 as [Hk1|Hk1]; [discriminate|].
      rewrite (own_inner child1 s1), own_leaf in Eown by auto.
      destruct (two_heads child1 (wf_child _ _ _ Hw1) Hcc1 Hk1)
        as (x1 & y1 & Hx1 & Hy1 & Hd1).
      apply (in_map (app s1)) in Hx1. apply (in_map (app s1)) in Hy1.
      rewrite Eown in Hx1, Hy1.
      destruct Hx1 as [Hx1|[]]. destruct Hy1 as [Hy1|[]].
      rewrite Hx1 in Hy1. apply app_inv_head in Hy1. congruence.
    + exfalso. rewrite terminal_c_str in Hk2 by auto.
      destruct Hk2 as [Hk2|Hk2]; [discriminate|].
      rewrite (own_inner child2 s2), own_leaf in Eown by auto.
      destruct (two_heads child2 (wf_child _ _ _ Hw2) Hcc2 Hk2)
        as (x2 & y2 & Hx2 & Hy2 & Hd2).
      apply (in_map (app s2)) in Hx2. apply (in_map (app s2)) in Hy2.
      rewrite <- Eown in Hx2, Hy2.
      destruct Hx2 as [Hx2|[]]. destruct Hy2 as [Hy2|[]].
      rewrite Hx2 in Hy2. apply app_inv_head in Hy2. congruence.
    + rewrite !own_leaf in Eown. injection Eown as ->. reflexivity.
Qed.

(** Two strictly ascending lists with the same elements are equal. *)
Lemma sorted_same_elements (l1 : list (list Z)) : forall l2,
  StronglySorted char_lt l1 -> StronglySorted char_lt l2 ->
  (forall x, In x l1 <-> In x l2) -> l1 = l2.
Proof.
  induction l1 as [|a l1 IH]; intros [|b l2] H1 H2 Hiff.
  - reflexivity.
  - exfalso. apply (proj2 (Hiff b)). left. reflexivity.
  - exfalso. apply (proj1 (Hiff a)). left. reflexivity.
  - inversion H1 as [|? ? S1 F1]; subst. inversion H2 as [|? ? S2 F2]; subst.
    rewrite Forall_forall in F1, F2.
    assert (Eab : a = b).
    { destruct (proj1 (Hiff a) (or_introl eq_refl)) as [->|Ha]; auto.
      destruct (proj2 (Hiff b) (or_introl eq_refl)) as [->|Hb]; auto.
      exfalso. apply (char_lt_irrefl a).
      apply char_lt_trans with b; auto. }
    subst b. f_equal. apply IH; auto.
    intros x. split; intros Hx.
    + destruct (proj1 (Hiff x) (or_intror Hx)) as [->|]; auto.
      exfalso. apply (char_lt_irrefl x). auto.
    + destruct (proj2 (Hiff x) (or_intror Hx)) as [->|]; auto.
      exfalso. apply (char_lt_irrefl x). auto.
Qed.

Lemma same_lookup_same_strings r1 r2 :
  well_formed r1 -> well_formed r2 ->
  (forall s, c_str s -> radix_trie_lookup r1 s = radix_trie_lookup r2 s) ->
  strings r1 = strings r2.
Proof.
  intros H1 H2 Hl. apply sorted_same_elements; try apply strings_sorted; auto.
  intros x. split; intros Hx.
  - pose proof (strings_c_str _ H1 _ Hx) as Hc.
    apply (lookup_correct _ _ H2 Hc). rewrite <- Hl by auto.
    apply (lookup_correct _ _ H1 Hc). exact Hx.
  - pose proof (strings_c_str _ H2 _ Hx) as Hc.
    apply (lookup_correct _ _ H1 Hc). rewrite Hl by auto.
    apply (lookup_correct _ _ H2 Hc). exact Hx.
Qed.

(** * The properties of the specification *)

Lemma visited_no_room root ubuf ulen sbuf :
  buffer_len ubuf ulen = O -> visited root ubuf ulen sbuf = [].
Proof.
  intros E. unfold visited, radix_trie_foreach.
  cbn [len]. rewrite E. reflexivity.
Qed.

(** C1 as the code has it.  Round trip: when the strings of a list are
    inserted one after the other into the empty tree and every insertion
    succeeds, iteration with a buffer that holds the longest of them shows
    the callback exactly those strings, each once, in strictly ascending
    order of the nul-terminated strings compared by [char] value.  That is
    the ascending lexicographic order of the byte values when every byte
    has its own value as [char] value. *)
Theorem foreach_after_inserts_is_sorted_set
  (l : list (list Z)) (h h' : heap) (root : radix_trie)
  (ubuf : option buffer) (ulen : nat) (sbuf : buffer) :
  Forall c_str l ->
  insert_all l NULL h = Some (root, h') ->
  (forall s, In s l -> (length s < buffer_len ubuf ulen)%nat) ->
  (forall s, In s (visited root ubuf ulen sbuf) <-> In s l) /\
  StronglySorted char_lt (visited root ubuf ulen sbuf) /\
  NoDup (visited root ubuf ulen sbuf) /\
  (Forall (Forall plain) l ->
   StronglySorted raw_lt (visited root ubuf ulen sbuf)).
Proof.
  intros Hl Hall Hfit.
  destruct (insert_all_spec l NULL h root h' wf_NULL Hl Hall) as [Hwf Hin].
  assert (Hmem : forall s, In s (strings root) <-> In s l).
  { intros s. rewrite Hin. simpl. tauto. }
  destruct (Nat.eq_dec (buffer_len ubuf ulen) 0) as [E|E].
  - rewrite visited_no_room by exact E. repeat split.
    + intros [].
    + intros Hs. apply Hfit in Hs. lia.
    + constructor.
    + constructor.
    + constructor.
  - rewrite visited_spec by (auto; lia). rewrite map_firstn_id.
    + repeat split; try apply Hmem.
      * apply strings_sorted. exact Hwf.
      * apply sorted_NoDup, strings_sorted. exact Hwf.
      * intros Hplain. apply sorted_raw; [apply strings_sorted; exact Hwf|].
        apply Forall_forall. intros s Hs. apply Hmem in Hs.
        exact (proj1 (Forall_forall _ _) Hplain s Hs).
    + intros s Hs. apply Hmem, Hfit in Hs. lia.
Qed.

Lemma foreach_after_inserts_witness :
  let l := [[99; 97; 116]; [99; 97; 114]; [100; 111; 103]; [99; 97; 116]] in
  let root := Node (Node NULL NULL [100; 111; 103; 0])
                   (Node (Node NULL NULL [116; 0]) NULL [114; 0]) [99; 97] in
  insert_all l NULL [] = Some (root, []) /\
  visited root None 0 (fun _ => 7) =
    [[99; 97; 114]; [99; 97; 116]; [100; 111; 103]] /\
  StronglySorted char_lt (visited root None 0 (fun _ => 7)) /\
  StronglySorted raw_lt (visited root None 0 (fun _ => 7)).
Proof.
  intros l root. split; [reflexivity|]. split; [reflexivity|].
  assert (Hl : Forall c_str l) by (repeat constructor; unfold nonzero; lia).
  assert (Hfit : forall s, In s l -> (length s < buffer_len None 0)%nat).
  { intros s [<-|[<-|[<-|[<-|[]]]]]; vm_compute; lia. }
  destruct (foreach_after_inserts_is_sorted_set l [] [] root None 0 (fun _ => 7)
              Hl eq_refl Hfit) as (_ & Hsorted & _ & Hraw).
  split; [exact Hsorted|]. apply Hraw.
  repeat constructor; unfold plain; lia.
Defined.

(** C1, counterexample.  Where [char] is signed the bytes 0xc3 0xa9 have
    the values -61 and -87.  After "a" and the string of these two bytes
    are inserted, iteration shows that string first, although its first
    byte, 195, is above the byte of "a", 97: the order is not that of the
    byte values.  And after "a" and "a" followed by the byte 0x80 (value
    -128) are inserted, the longer string is shown before "a", which is a
    prefix of it. *)
Lemma foreach_out_of_byte_order :
  let l := [[97]; [-61; -87]] in
  let root := Node (Node NULL NULL [97; 0]) NULL [-61; -87; 0] in
  let l2 := [[97]; [97; -128]] in
  let root2 := Node NULL (Node (Node NULL NULL [0]) NULL [-128; 0]) [97] in
  Forall c_str l /\
  insert_all l NULL [] = Some (root, []) /\
  visited root None 0 (fun _ => 0) = [[-61; -87]; [97]] /\
  map raw_byte [-61; -87] = [195; 169] /\
  raw_lt [97] [-61; -87] /\
  ~ StronglySorted raw_lt (visited root None 0 (fun _ => 0)) /\
  Forall c_str l2 /\
  insert_all l2 NULL [] = Some (root2, []) /\
  visited root2 None 0 (fun _ => 0) = [[97; -128]; [97]] /\
  starts_with [97; -128] [97].
Proof.
  intros l root l2 root2.
  split; [repeat constructor; unfold nonzero; lia|].
  split; [reflexivity|]. split; [reflexivity|]. split; [reflexivity|].
  split; [apply lex_head; reflexivity|].
  split.
  { change (visited root None 0 (fun _ => 0)) with [[-61; -87]; [97]].
    intros H. inversion H as [|? ? _ Hall]; subst.
    inversion Hall as [|? ? Hlt _]; subst.
    unfold raw_lt in Hlt. simpl in Hlt. inversion Hlt; subst.
    match goal with Hc : _ < _ |- _ => vm_compute in Hc; discriminate Hc end. }
  split; [repeat constructor; unfold nonzero; lia|].
  split; [reflexivity|]. split; [reflexivity|].
  exists [-128]. reflexivity.
Qed.

(** C2 as the code has it.  A failed insertion leaves the set of members
    and the structural invariants as they were.  The tree itself is
    unchanged when the first allocation of the call is the one that
    fails.  When that allocation succeeds, the call has split a node and
    failed to allocate the suffix node: the split stays, so the tree is
    the old one with one node replaced by a node that is not terminal and
    has a single child, and it is not in canonical form. *)
Theorem failed_insert_keeps_members
  (root : radix_trie) (str : list Z) (h : heap) :
  well_formed root -> c_str str ->
  fst (fst (radix_trie_insert root str h)) <> 0 ->
  strings (snd (fst (radix_trie_insert root str h))) = strings root /\
  well_formed (snd (fst (radix_trie_insert root str h))) /\
  (forall s, c_str s ->
     radix_trie_lookup (snd (fst (radix_trie_insert root str h))) s =
     radix_trie_lookup root s) /\
  (fst (alloc h) = false -> snd (fst (radix_trie_insert root str h)) = root) /\
  (fst (alloc h) = true ->
     split_left root (snd (fst (radix_trie_insert root str h))) /\
     snd (fst (radix_trie_insert root str h)) <> root /\
     has_single_child (snd (fst (radix_trie_insert root str h))) = true /\
     canonical (snd (fst (radix_trie_insert root str h))) = false).
Proof.
  intros Hwf Hs Hres.
  pose proof (insert_wf root str h Hwf Hs) as Hwf'.
  destruct (insert_strings root str h Hwf Hs) as [_ Hsame].
  specialize (Hsame Hres).
  pose proof (insert_insertion root str h Hwf Hs) as Hi.
  split; [exact Hsame|]. split; [exact Hwf'|]. split; [|split].
  - intros s Hcs.
    pose proof (lookup_correct _ s Hwf' Hcs) as H1.
    pose proof (lookup_correct _ s Hwf Hcs) as H2.
    rewrite Hsame in H1.
    destruct (radix_trie_lookup (snd (fst (radix_trie_insert root str h))) s),
      (radix_trie_lookup root s); auto.
    + symmetry. apply H2, H1. reflexivity.
    + apply H1, H2. reflexivity.
  - intros Hfirst. eapply insertion_first_alloc; eauto.
  - intros Hfirst.
    destruct (insertion_failure_shape _ _ _ _ Hi Hres) as [[Ha _]|[_ Hsplit]];
      [congruence|].
    pose proof (split_left_single_child _ _ Hsplit) as Hsc.
    split; [exact Hsplit|]. split; [exact (split_left_changes _ _ Hsplit)|].
    split; [exact Hsc|].
    destruct (canonical (snd (fst (radix_trie_insert root str h)))) eqn:Hc; auto.
    apply canonical_no_single_child in Hc. congruence.
Qed.

Lemma failed_insert_witness :
  let root := Node NULL NULL [97; 98; 99; 0] in
  let r := radix_trie_insert root [97; 98; 100] [true; true; false] in
  fst (fst r) = 1 /\
  strings (snd (fst r)) = strings root /\
  well_formed (snd (fst r)) /\
  split_left root (snd (fst r)) /\
  canonical (snd (fst r)) = false.
Proof.
  intros root r. split; [reflexivity|].
  assert (Hwf : well_formed root).
  { apply (wf_leaf NULL [97; 98; 99]);
      [repeat constructor; unfold nonzero; lia | exact I | constructor]. }
  assert (Hs : c_str [97; 98; 100]) by (repeat constructor; unfold nonzero; lia).
  assert (Hres : fst (fst (radix_trie_insert root [97; 98; 100] [true; true; false])) <> 0)
    by (vm_compute; discriminate).
  destruct (failed_insert_keeps_members root [97; 98; 100] [true; true; false]
              Hwf Hs Hres) as (H1 & H2 & _ & _ & H5).
  destruct (H5 eq_refl) as (H6 & _ & _ & H7).
  repeat split; assumption.
Defined.

(** C2, counterexample.  The tree that holds "abc" is in canonical form.
    Inserting "abd" splits its node; when the allocation of the suffix
    node then fails, the call returns 1 and the split stays: the tree has
    changed and is no longer canonical. *)
Lemma failed_insert_leaves_split :
  let root := snd (fst (radix_trie_insert NULL [97; 98; 99] [])) in
  let r := radix_trie_insert root [97; 98; 100] [true; true; false] in
  root = Node NULL NULL [97; 98; 99; 0] /\
  canonical root = true /\
  fst (fst r) = 1 /\
  snd (fst r) = Node NULL (Node NULL NULL [99; 0]) [97; 98] /\
  snd (fst r) <> root /\
  canonical (snd (fst r)) = false /\
  has_single_child (snd (fst r)) = true.
Proof.
  vm_compute. repeat split; auto. discriminate.
Qed.

(** C3.  [radix_trie_delete] returns 0 when the string is absent, the
    value it also returns when the string was found and removed. *)
Theorem delete_absent_returns_zero :
  radix_trie_delete NULL [97] [] = (0, NULL, []) /\
  radix_trie_delete (Node NULL NULL [97; 0]) [98] [] =
    (0, Node NULL NULL [97; 0], []) /\
  radix_trie_delete (Node NULL NULL [97; 0]) [97] [] = (0, NULL, []).
Proof. repeat split. Qed.




(** C5.  Deleting a member of a tree made by calls takes it out of the
    set, whether or not fusing succeeds, and every other member is still
    found by lookup and shown by iteration. *)
Theorem delete_removes_only_the_string
  (root : radix_trie) (str : list Z) (h : heap) :
  reachable root -> c_str str -> radix_trie_lookup root str = true ->
  radix_trie_lookup (snd (fst (radix_trie_delete root str h))) str = false /\
  forall s, c_str s -> s <> str -> radix_trie_lookup root s = true ->
    radix_trie_lookup (snd (fst (radix_trie_delete root str h))) s = true /\
    forall ubuf ulen sbuf, (length s < buffer_len ubuf ulen)%nat ->
      In s (visited (snd (fst (radix_trie_delete root str h))) ubuf ulen sbuf).
Proof.
  intros Hr Hs Hl. pose proof (reachable_wf _ Hr) as Hwf.
  pose proof (delete_wf root str h Hwf Hs) as Hwf'.
  pose proof (delete_strings root str h Hwf Hs) as Hdel.
  split.
  - destruct (radix_trie_lookup (snd (fst (radix_trie_delete root str h))) str)
      eqn:E; auto.
    apply (lookup_correct _ _ Hwf' Hs) in E. apply Hdel in E. tauto.
  - intros s Hcs Hne Hls. apply (lookup_correct _ _ Hwf Hcs) in Hls.
    assert (Hin : In s (strings (snd (fst (radix_trie_delete root str h)))))
      by (apply Hdel; auto).
    split; [apply (lookup_correct _ _ Hwf' Hcs); exact Hin|].
    intros ubuf ulen sbuf Hfit. rewrite visited_spec by (auto; lia).
    apply in_map_iff. exists s. split; auto. apply firstn_all2. lia.
Qed.

Lemma delete_removes_witness :
  let root := Node NULL (Node (Node NULL NULL [99; 0]) NULL [98; 0]) [97] in
  let r := radix_trie_delete root [97; 98] [false] in
  fst (fst r) = -1 /\
  radix_trie_lookup (snd (fst r)) [97; 98] = false /\
  radix_trie_lookup (snd (fst r)) [97; 99] = true.
Proof.
  intros root r. split; [reflexivity|].
  assert (Hr : reachable root).
  { exact (reach_insert _ [97; 99] []
             (reach_insert NULL [97; 98] [] reach_empty
                ltac:(repeat constructor; unfold nonzero; lia))
             ltac:(repeat constructor; unfold nonzero; lia)). }
  assert (Hs : c_str [97; 98]) by (repeat constructor; unfold nonzero; lia).
  destruct (delete_removes_only_the_string root [97; 98] [false] Hr Hs eq_refl)
    as [H1 H2].
  split; [exact H1|].
  apply (H2 [97; 99]); [repeat constructor; unfold nonzero; lia | discriminate | reflexivity].
Defined.

(** C6 as the code has it.  After calls that all returned 0 (no insertion
    failed, no attempt to fuse failed) the tree is in canonical form:
    every node that is not terminal has at least two children, so none
    has a single child it could be merged with. *)
Theorem calls_that_succeed_keep_canonical_form (root : radix_trie) :
  reachable_ok root ->
  canonical root = true /\ has_single_child root = false.
Proof.
  intros Hr. pose proof (reachable_ok_canonical _ Hr) as Hc.
  split; auto. apply canonical_no_single_child. exact Hc.
Qed.

Lemma canonical_form_witness :
  let root := snd (fst (radix_trie_delete
                (snd (fst (radix_trie_insert
                   (snd (fst (radix_trie_insert NULL [97; 98] [])))
                   [97; 99] [])))
                [97; 98] [])) in
  root = Node NULL NULL [97; 99; 0] /\
  canonical root = true /\ has_single_child root = false.
Proof.
  intros root. split; [reflexivity|].
  apply calls_that_succeed_keep_canonical_form.
  apply reach_ok_delete; [|repeat constructor; unfold nonzero; lia | reflexivity].
  apply reach_ok_insert; [|repeat constructor; unfold nonzero; lia | reflexivity].
  apply reach_ok_insert; [constructor | repeat constructor; unfold nonzero; lia | reflexivity].
Defined.

(** C6, counterexample.  Two insertions and no deletion, so no attempt to
    fuse: the second insertion fails after it has split the node of
    "abc", and leaves a node that is not terminal with a single child. *)
Lemma failed_insert_breaks_canonical_form :
  let t1 := snd (fst (radix_trie_insert NULL [97; 98; 99] [])) in
  let t2 := snd (fst (radix_trie_insert t1 [97; 98; 100] [true; true; false])) in
  reachable t2 /\
  t2 = Node NULL (Node NULL NULL [99; 0]) [97; 98] /\
  has_single_child t2 = true /\ canonical t2 = false.
Proof.
  intros t1 t2. split.
  - apply reach_insert; [|repeat constructor; unfold nonzero; lia].
    apply reach_insert; [constructor | repeat constructor; unfold nonzero; lia].
  - vm_compute. auto.
Qed.

(** C7 as the code has it.  Early termination.  With a buffer of at least
    one byte, the strings [radix_trie_foreach] shows to a callback that
    never asks to stop are the members, each cut to the buffer, in
    strictly ascending order of the nul-terminated strings compared by
    [char] value; that is the ascending order of the byte values when
    every byte of every member has its own value as [char] value.  For
    any callback, the calls made are on the first [k] of them, in that
    order: all of them, every call returning 0 and [radix_trie_foreach]
    returning 0, when the callback never asks to stop; otherwise the
    [k]-th call is the first on which the callback returned nonzero, no
    call follows it, and [radix_trie_foreach] returns 1. *)
Theorem foreach_stops_at_first_request {D : Type}
  (root : radix_trie) (f : radix_trie_forfn_t D) (d : D)
  (ubuf : option buffer) (ulen : nat) (sbuf : buffer) :
  reachable root -> (1 <= buffer_len ubuf ulen)%nat ->
  (forall s, c_str s ->
     (In s (strings root) <-> radix_trie_lookup root s = true)) /\
  StronglySorted char_lt (strings root) /\
  (Forall (Forall plain) (strings root) -> StronglySorted raw_lt (strings root)) /\
  visited root ubuf ulen sbuf =
    map (firstn (buffer_len ubuf ulen - 1)) (strings root) /\
  exists ret d' calls b' k,
    radix_trie_foreach root (traced f) (d, []) ubuf ulen sbuf =
      (ret, (d', calls), b') /\
    (k <= length (visited root ubuf ulen sbuf))%nat /\
    map fst calls = firstn k (visited root ubuf ulen sbuf) /\
    Forall (fun c => snd c = 0) (removelast calls) /\
    ((ret = 0 /\ k = length (visited root ubuf ulen sbuf) /\
      Forall (fun c => snd c = 0) calls) \/
     (ret = 1 /\ calls <> [] /\ snd (last calls ([], 0)) <> 0)).
Proof.
  intros Hr Hn. pose proof (reachable_wf _ Hr) as Hwf.
  split; [intros s Hs; symmetry; apply lookup_correct; auto|].
  split; [apply strings_sorted; exact Hwf|].
  split; [apply sorted_raw, strings_sorted; exact Hwf|].
  rewrite (visited_spec root ubuf ulen sbuf Hwf Hn). split; [reflexivity|].
  destruct (foreach_spec root (traced f) (d, []) ubuf ulen sbuf Hwf Hn) as [Hv _].
  destruct (visit_traced f
              (map (firstn (buffer_len ubuf ulen - 1)) (strings root)) d [])
    as (ret & d' & calls & k & E & Hk & Hm & Hz & Hend).
  rewrite E in Hv. simpl in Hv.
  destruct (radix_trie_foreach root (traced f) (d, []) ubuf ulen sbuf)
    as [[ret0 st] b'].
  cbn [fst] in Hv. injection Hv as -> ->.
  exists ret, d', calls, b', k. repeat split; auto.
Qed.

Lemma foreach_stops_witness :
  let root := Node (Node NULL NULL [100; 111; 103; 0])
                   (Node (Node NULL NULL [116; 0]) NULL [114; 0]) [99; 97] in
  (* the callback counts its calls and asks to stop on the second *)
  let f := fun (_ : list Z) (n : Z) => (if n =? 1 then 5 else 0, n + 1) in
  radix_trie_foreach root (traced f) (0, []) None 0 (fun _ => 7) =
    (1, (2, [([99; 97; 114], 0); ([99; 97; 116], 5)]),
     snd (radix_trie_foreach root (traced f) (0, []) None 0 (fun _ => 7))) /\
  StronglySorted char_lt (strings root) /\
  StronglySorted raw_lt (strings root).
Proof.
  intros root f. split; [reflexivity|].
  assert (Hr : reachable root).
  { exact (reach_insert _ [100; 111; 103] []
             (reach_insert _ [99; 97; 114] []
                (reach_insert NULL [99; 97; 116] [] reach_empty
                   ltac:(repeat constructor; unfold nonzero; lia))
                ltac:(repeat constructor; unfold nonzero; lia))
             ltac:(repeat constructor; unfold nonzero; lia)). }
  destruct (foreach_stops_at_first_request root f 0 None 0 (fun _ => 7) Hr
              ltac:(vm_compute; lia)) as (_ & Hsorted & Hraw & _).
  split; [exact Hsorted|]. apply Hraw.
  repeat constructor; unfold plain; lia.
Defined.

(** C7, counterexample.  Where [char] is signed the bytes 0xc3 0xa9 have
    the values -61 and -87.  In the tree that holds "a" and the string of
    these two bytes, a callback that asks to stop at once is called on
    that string and not on "a", which is the first member in the order of
    the byte values (97 is below 195). *)
Lemma foreach_stops_out_of_byte_order :
  let root := snd (fst (radix_trie_insert
                (snd (fst (radix_trie_insert NULL [97] [])))
                [-61; -87] [])) in
  let f := fun (_ : list Z) (n : Z) => (1, n + 1) in
  root = Node (Node NULL NULL [97; 0]) NULL [-61; -87; 0] /\
  radix_trie_lookup root [97] = true /\
  radix_trie_lookup root [-61; -87] = true /\
  raw_lt [97] [-61; -87] /\
  fst (radix_trie_foreach root (traced f) (0, []) None 0 (fun _ => 0)) =
    (1, (1, [([-61; -87], 1)])).
Proof.
  intros root f. repeat split. apply lex_head. reflexivity.
Qed.

(** C8.  Buffer discipline.  With a caller's buffer of [len >= 1] bytes
    every member is shown to the callback, as its first [len - 1] bytes
    when it is longer than that (the callback then finds the terminator
    in the last byte of the buffer), and no byte past the buffer is
    written, whatever the callback does. *)
Theorem foreach_cuts_members_to_buffer
  (root : radix_trie) (b : buffer) (ulen : nat) (sbuf : buffer) :
  reachable root -> (1 <= ulen)%nat ->
  (forall s, c_str s ->
     (In s (strings root) <-> radix_trie_lookup root s = true)) /\
  visited root (Some b) ulen sbuf = map (firstn (ulen - 1)) (strings root) /\
  (forall s, In s (strings root) -> (ulen - 1 < length s)%nat ->
     length (firstn (ulen - 1) s) = (ulen - 1)%nat) /\
  (forall (D : Type) (f : radix_trie_forfn_t D) (d : D) (j : nat),
     (ulen <= j)%nat ->
     snd (radix_trie_foreach root f d (Some b) ulen sbuf) j = b j).
Proof.
  intros Hr Hn. pose proof (reachable_wf _ Hr) as Hwf. repeat split.
  - intros Hin. apply lookup_correct; auto.
  - intros Hl. apply lookup_correct in Hl; auto.
  - apply (visited_spec root (Some b) ulen sbuf Hwf Hn).
  - intros s _ Hlen. rewrite length_firstn. lia.
  - intros D f d j Hj.
    apply (proj2 (foreach_spec root f d (Some b) ulen sbuf Hwf Hn)). exact Hj.
Qed.

Lemma foreach_cuts_witness :
  let root := Node (Node NULL NULL [100; 111; 103; 0])
                   (Node (Node NULL NULL [116; 0]) NULL [114; 0]) [99; 97] in
  visited root (Some (fun _ => 7)) 3 (fun _ => 7) =
    [[99; 97]; [99; 97]; [100; 111]] /\
  snd (radix_trie_foreach root collect [] (Some (fun _ => 7)) 3 (fun _ => 7)) 3%nat
    = 7.
Proof.
  intros root.
  assert (Hr : reachable root).
  { exact (reach_insert _ [100; 111; 103] []
             (reach_insert _ [99; 97; 114] []
                (reach_insert NULL [99; 97; 116] [] reach_empty
                   ltac:(repeat constructor; unfold nonzero; lia))
                ltac:(repeat constructor; unfold nonzero; lia))
             ltac:(repeat constructor; unfold nonzero; lia)). }
  destruct (foreach_cuts_members_to_buffer root (fun _ => 7) 3 (fun _ => 7) Hr
              ltac:(lia)) as (_ & H1 & _ & H2).
  split.
  - etransitivity; [exact H1 | reflexivity].
  - apply (H2 _ collect [] 3%nat). lia.
Defined.




(** C10.  With a caller's buffer of length 0, [radix_trie_foreach] makes
    no call of the callback (the data comes back as given, whatever the
    callback is) and returns 0. *)
Theorem foreach_zero_length_buffer {D : Type}
  (root : radix_trie) (f : radix_trie_forfn_t D) (d : D)
  (b sbuf : buffer) :
  radix_trie_foreach root f d (Some b) 0 sbuf = (0, d, b) /\
  radix_trie_foreach root (traced f) (d, []) (Some b) 0 sbuf = (0, (d, []), b).
Proof. split; reflexivity. Qed.

(** ** Insertion and lookup *)

(** X1.  After a successful [radix_trie_insert] the string is found by
    [radix_trie_lookup], and the answer for every other string is as
    before. *)
Theorem insert_makes_member (root : radix_trie) (str : list Z) (h : heap) :
  reachable root -> c_str str ->
  fst (fst (radix_trie_insert root str h)) = 0 ->
  radix_trie_lookup (snd (fst (radix_trie_insert root str h))) str = true /\
  forall s, c_str s -> s <> str ->
    radix_trie_lookup (snd (fst (radix_trie_insert root str h))) s =
    radix_trie_lookup root s.
Proof.
  intros Hr Hs Hres. pose proof (reachable_wf _ Hr) as Hwf.
  pose proof (insert_wf root str h Hwf Hs) as Hwf'.
  destruct (insert_strings root str h Hwf Hs) as [Hok _].
  specialize (Hok Hres). split.
  - apply lookup_correct; auto. apply Hok. auto.
  - intros s Hcs Hne. apply lookup_same_members; auto.
    rewrite Hok. tauto.
Qed.

Lemma insert_makes_member_witness :
  let root := Node NULL NULL [99; 97; 116; 0] in
  radix_trie_lookup (snd (fst (radix_trie_insert root [99; 97; 114] []))) [99; 97; 114]
    = true.
Proof.
  intros root.
  assert (Hr : reachable root)
    by exact (reach_insert NULL [99; 97; 116] [] reach_empty ltac:(repeat constructor; unfold nonzero; lia)).
  apply (proj1 (insert_makes_member root [99; 97; 114] [] Hr
                  ltac:(repeat constructor; unfold nonzero; lia) eq_refl)).
Defined.

(** X2.  Inserting a string that is already a member returns 0, leaves
    the tree as it is and calls no allocator. *)
Theorem insert_of_member_changes_nothing
  (root : radix_trie) (str : list Z) (h : heap) :
  reachable root -> c_str str -> radix_trie_lookup root str = true ->
  radix_trie_insert root str h = (0, root, h).
Proof.
  intros Hr Hs Hl. pose proof (reachable_wf _ Hr) as Hwf.
  apply (insertion_member root str h); auto.
  - apply insert_insertion; auto.
  - apply lookup_correct; auto.
Qed.

Lemma insert_of_member_witness :
  let root := Node NULL NULL [99; 97; 116; 0] in
  radix_trie_insert root [99; 97; 116] [false; false] = (0, root, [false; false]).
Proof.
  intros root.
  assert (Hr : reachable root)
    by exact (reach_insert NULL [99; 97; 116] [] reach_empty ltac:(repeat constructor; unfold nonzero; lia)).
  apply (insert_of_member_changes_nothing root [99; 97; 116] [false; false] Hr
           ltac:(repeat constructor; unfold nonzero; lia) eq_refl).
Defined.



(** ** Deletion *)

(** X4.  [radix_trie_delete] of a string that is not a member returns 0,
    leaves the tree as it is and calls no allocator. *)
Theorem delete_of_absent_changes_nothing
  (root : radix_trie) (str : list Z) (h : heap) :
  reachable root -> c_str str -> radix_trie_lookup root str = false ->
  radix_trie_delete root str h = (0, root, h).
Proof.
  intros Hr Hs Hl. apply delete_absent_is_silent; auto.
  apply reachable_wf. exact Hr.
Qed.

Lemma delete_of_absent_witness :
  let root := Node NULL NULL [99; 97; 116; 0] in
  radix_trie_delete root [99; 97] [false] = (0, root, [false]).
Proof.
  intros root.
  assert (Hr : reachable root)
    by exact (reach_insert NULL [99; 97; 116] [] reach_empty ltac:(repeat constructor; unfold nonzero; lia)).
  apply (delete_of_absent_changes_nothing root [99; 97] [false] Hr
           ltac:(repeat constructor; unfold nonzero; lia) eq_refl).
Defined.

(** X5.  Deleting the same string a second time returns 0 and changes
    nothing, whatever the first call returned. *)
Theorem delete_twice (root : radix_trie) (str : list Z) (h1 h2 : heap) :
  reachable root -> c_str str ->
  radix_trie_delete (snd (fst (radix_trie_delete root str h1))) str h2 =
  (0, snd (fst (radix_trie_delete root str h1)), h2).
Proof.
  intros Hr Hs. pose proof (reachable_wf _ Hr) as Hwf.
  pose proof (delete_wf root str h1 Hwf Hs) as Hwf'.
  apply delete_absent_is_silent; auto.
  destruct (radix_trie_lookup _ str) eqn:E; auto.
  apply (lookup_correct _ _ Hwf' Hs) in E.
  apply (delete_strings root str h1 Hwf Hs) in E. tauto.
Qed.

Lemma delete_twice_witness :
  let root := Node NULL (Node (Node NULL NULL [99; 0]) NULL [98; 0]) [97] in
  radix_trie_delete (snd (fst (radix_trie_delete root [97; 98] [false])))
    [97; 98] [false] =
  (0, Node NULL (Node NULL NULL [99; 0]) [97], [false]).
Proof.
  intros root.
  assert (Hr : reachable root).
  { exact (reach_insert _ [97; 99] []
             (reach_insert NULL [97; 98] [] reach_empty
                ltac:(repeat constructor; unfold nonzero; lia))
             ltac:(repeat constructor; unfold nonzero; lia)). }
  apply (delete_twice root [97; 98] [false] [false] Hr ltac:(repeat constructor; unfold nonzero; lia)).
Defined.

(** X6.  [radix_trie_delete] returns 0 or -1; it makes at most one
    allocator call (the [realloc] of a fuse) and returns -1 only when
    that call fails. *)
Theorem delete_fails_only_on_allocation
  (root : radix_trie) (str : list Z) (h : heap) :
  reachable root -> c_str str ->
  (fst (fst (radix_trie_delete root str h)) = 0 \/
   fst (fst (radix_trie_delete root str h)) = -1) /\
  (fst (fst (radix_trie_delete root str h)) = -1 -> fst (alloc h) = false) /\
  (snd (radix_trie_delete root str h) = h \/
   snd (radix_trie_delete root str h) = snd (alloc h)).
Proof.
  intros Hr Hs. pose proof (reachable_wf _ Hr) as Hwf.
  unfold radix_trie_delete.
  destruct (delete_deletion root str h Hwf Hs) as (st & root' & lost & Hd & ->).
  apply deletion_alloc in Hd. cbn [fst snd] in Hd.
  destruct st as [|res h1]; cbn [fst snd].
  - repeat split; auto. discriminate.
  - destruct Hd as [(-> & [-> |Ha])|(-> & Ha)]; rewrite ?Ha; cbn [fst snd];
      repeat split; auto; discriminate.
Qed.

Lemma delete_fails_only_witness :
  let root := Node NULL (Node (Node NULL NULL [99; 0]) NULL [98; 0]) [97] in
  fst (fst (radix_trie_delete root [97; 98] [false])) = -1 /\
  fst (alloc [false]) = false.
Proof.
  intros root. split; [reflexivity|].
  assert (Hr : reachable root).
  { exact (reach_insert _ [97; 99] []
             (reach_insert NULL [97; 98] [] reach_empty
                ltac:(repeat constructor; unfold nonzero; lia))
             ltac:(repeat constructor; unfold nonzero; lia)). }
  apply (proj1 (proj2 (delete_fails_only_on_allocation root [97; 98] [false] Hr
                         ltac:(repeat constructor; unfold nonzero; lia)))).
  reflexivity.
Defined.

(** X7.  Insert, then delete: in a tree made by calls that all returned
    0, deleting a string that was just inserted, and was not a member
    before, returns 0 and gives back the very tree there was before the
    insertion, when the [realloc] of the fuse succeeds. *)
Theorem delete_undoes_insert
  (root : radix_trie) (str : list Z) (h h' : heap) :
  reachable_ok root -> c_str str ->
  radix_trie_lookup root str = false ->
  fst (fst (radix_trie_insert root str h)) = 0 ->
  fst (alloc h') = true ->
  fst (radix_trie_delete (snd (fst (radix_trie_insert root str h))) str h') =
  (0, root).
Proof.
  intros Hr Hs Hl Hres Hh'.
  pose proof (reachable_wf _ (reachable_ok_reachable _ Hr)) as Hwf.
  pose proof (reachable_ok_canonical _ Hr) as Hc.
  pose proof (insert_insertion root str h Hwf Hs) as Hi.
  pose proof (insert_wf root str h Hwf Hs) as Hwf'.
  assert (Hnin : ~ In str (strings root)).
  { intros Hin. apply (lookup_correct _ _ Hwf Hs) in Hin. congruence. }
  destruct (insertion_then_deletion _ _ _ _ Hi Hwf Hs Hc Hnin Hres h' Hh')
    as (st & Hd & Hst).
  rewrite (delete_of_deletion _ _ _ _ _ _ Hd Hwf' Hs).
  destruct Hst as [-> |(h'' & ->)]; reflexivity.
Qed.

Lemma delete_undoes_insert_witness :
  let root := Node NULL NULL [97; 98; 99; 0] in
  snd (fst (radix_trie_insert root [97; 98; 100] [])) =
    Node NULL (Node (Node NULL NULL [100; 0]) NULL [99; 0]) [97; 98] /\
  fst (radix_trie_delete (snd (fst (radix_trie_insert root [97; 98; 100] [])))
         [97; 98; 100] []) = (0, root).
Proof.
  intros root. split; [reflexivity|].
  assert (Hr : reachable_ok root).
  { apply (reach_ok_insert NULL [97; 98; 99] []);
      [constructor | repeat constructor; unfold nonzero; lia | reflexivity]. }
  apply (delete_undoes_insert root [97; 98; 100] [] [] Hr
           ltac:(repeat constructor; unfold nonzero; lia) eq_refl eq_refl eq_refl).
Defined.

(** X8.  Delete, then insert: after a member is deleted and inserted
    again with success, lookup answers for every string as it did before
    the two calls. *)
Theorem insert_after_delete_restores_members
  (root : radix_trie) (str : list Z) (h1 h2 : heap) :
  reachable root -> c_str str -> radix_trie_lookup root str = true ->
  fst (fst (radix_trie_insert
              (snd (fst (radix_trie_delete root str h1))) str h2)) = 0 ->
  forall s, c_str s ->
    radix_trie_lookup
      (snd (fst (radix_trie_insert
                   (snd (fst (radix_trie_delete root str h1))) str h2))) s =
    radix_trie_lookup root s.
Proof.
  intros Hr Hs Hl Hres s Hcs. pose proof (reachable_wf _ Hr) as Hwf.
  pose proof (delete_wf root str h1 Hwf Hs) as Hwf1.
  pose proof (insert_wf _ str h2 Hwf1 Hs) as Hwf2.
  destruct (insert_strings _ str h2 Hwf1 Hs) as [Hok _].
  specialize (Hok Hres).
  apply lookup_same_members; auto.
  rewrite Hok, (delete_strings root str h1 Hwf Hs).
  apply (lookup_correct _ _ Hwf Hs) in Hl.
  split.
  - intros [-> |[_ H]]; auto.
  - intros H. destruct (list_eq_dec Z.eq_dec s str) as [E|E]; auto.
Qed.

Lemma insert_after_delete_witness :
  let root := Node NULL (Node (Node NULL NULL [99; 0]) NULL [98; 0]) [97] in
  radix_trie_lookup
    (snd (fst (radix_trie_insert
                 (snd (fst (radix_trie_delete root [97; 98] [false])))
                 [97; 98] []))) [97; 99] = true.
Proof.
  intros root.
  assert (Hr : reachable root).
  { exact (reach_insert _ [97; 99] []
             (reach_insert NULL [97; 98] [] reach_empty
                ltac:(repeat constructor; unfold nonzero; lia))
             ltac:(repeat constructor; unfold nonzero; lia)). }
  apply (insert_after_delete_restores_members root [97; 98] [false] [] Hr
           ltac:(repeat constructor; unfold nonzero; lia) eq_refl eq_refl [97; 99]
           ltac:(repeat constructor; unfold nonzero; lia)).
Defined.

(** ** Lookup, prefix match and iteration together *)

(** X9.  Lookup and iteration agree: a string that fits the buffer with
    a byte to spare is found by [radix_trie_lookup] exactly when
    [radix_trie_foreach] shows it to the callback. *)
Theorem lookup_iff_shown_by_foreach
  (root : radix_trie) (s : list Z) (ubuf : option buffer) (ulen : nat)
  (sbuf : buffer) :
  reachable root -> c_str s -> (length s + 1 < buffer_len ubuf ulen)%nat ->
  (radix_trie_lookup root s = true <-> In s (visited root ubuf ulen sbuf)).
Proof.
  intros Hr Hs Hfit. pose proof (reachable_wf _ Hr) as Hwf.
  rewrite visited_spec by (auto; lia). rewrite in_map_iff. split.
  - intros Hl. apply (lookup_correct _ _ Hwf Hs) in Hl.
    exists s. split; auto. apply firstn_all2. lia.
  - intros (m & E & Hm). apply (lookup_correct _ _ Hwf Hs).
    assert (Hlen : length (firstn (buffer_len ubuf ulen - 1) m) = length s)
      by (rewrite E; reflexivity).
    rewrite length_firstn in Hlen.
    rewrite firstn_all2 in E by lia. subst m. exact Hm.
Qed.

Lemma lookup_iff_shown_witness :
  let root := Node (Node NULL NULL [100; 111; 103; 0])
                   (Node (Node NULL NULL [116; 0]) NULL [114; 0]) [99; 97] in
  radix_trie_lookup root [99; 97; 116] = true /\
  In [99; 97; 116] (visited root (Some (fun _ => 7)) 5 (fun _ => 7)).
Proof.
  intros root. split; [reflexivity|].
  assert (Hr : reachable root).
  { exact (reach_insert _ [100; 111; 103] []
             (reach_insert _ [99; 97; 114] []
                (reach_insert NULL [99; 97; 116] [] reach_empty
                   ltac:(repeat constructor; unfold nonzero; lia))
                ltac:(repeat constructor; unfold nonzero; lia))
             ltac:(repeat constructor; unfold nonzero; lia)). }
  apply (proj1 (lookup_iff_shown_by_foreach root [99; 97; 116]
                  (Some (fun _ => 7)) 5 (fun _ => 7) Hr
                  ltac:(repeat constructor; unfold nonzero; lia) ltac:(vm_compute; lia))).
  reflexivity.
Defined.

(** X10.  Every prefix of a member that is not empty is matched by
    [radix_trie_match], in any tree that calls can make (also after failed
    allocations).  The empty prefix is matched when the member is the
    empty string or starts with a byte whose [char] value is not
    negative. *)
Theorem prefix_of_member_matches (root : radix_trie) (p t : list Z) :
  reachable root -> c_str (p ++ t) ->
  radix_trie_lookup root (p ++ t) = true ->
  (p = [] -> 0 <= str_at t 0) ->
  radix_trie_match root p = true.
Proof.
  intros Hr Hs Hl Hseen. pose proof (reachable_wf _ Hr) as Hwf.
  apply (lookup_correct _ _ Hwf Hs) in Hl. unfold radix_trie_match.
  rewrite (match_loop_complete (S (depth root)) root p t); auto.
  intros ->. apply Hseen. reflexivity.
Qed.

Lemma prefix_of_member_witness :
  let root := Node NULL (Node NULL NULL [99; 0]) [97] in
  radix_trie_match root [97] = true.
Proof.
  intros root.
  assert (Hr : reachable root).
  { exact (reach_delete _ [97; 98] [false]
             (reach_insert _ [97; 99] []
                (reach_insert NULL [97; 98] [] reach_empty
                   ltac:(repeat constructor; unfold nonzero; lia))
                ltac:(repeat constructor; unfold nonzero; lia))
             ltac:(repeat constructor; unfold nonzero; lia)). }
  apply (prefix_of_member_matches root [97] [99] Hr
           ltac:(repeat constructor; unfold nonzero; lia) eq_refl).
  discriminate.
Defined.

(** X11.  What [radix_trie_foreach] returns and what it does to the
    callback's data do not depend on what the buffer holds beforehand,
    be it the caller's or the uninitialised stack buffer, only on the
    buffer's length. *)
Theorem foreach_ignores_buffer_contents {D : Type}
  (root : radix_trie) (f : radix_trie_forfn_t D) (d : D)
  (ubuf1 ubuf2 : option buffer) (ulen1 ulen2 : nat) (sbuf1 sbuf2 : buffer) :
  reachable root ->
  buffer_len ubuf1 ulen1 = buffer_len ubuf2 ulen2 ->
  fst (radix_trie_foreach root f d ubuf1 ulen1 sbuf1) =
  fst (radix_trie_foreach root f d ubuf2 ulen2 sbuf2).
Proof.
  intros Hr E. pose proof (reachable_wf _ Hr) as Hwf.
  destruct (Nat.eq_dec (buffer_len ubuf1 ulen1) 0) as [E0|E0].
  - unfold radix_trie_foreach. cbn [len]. rewrite <- E, E0. reflexivity.
  - destruct (foreach_spec root f d ubuf1 ulen1 sbuf1 Hwf) as [-> _]; [lia|].
    destruct (foreach_spec root f d ubuf2 ulen2 sbuf2 Hwf) as [-> _]; [lia|].
    rewrite E. reflexivity.
Qed.

Lemma foreach_ignores_buffer_witness :
  let root := Node (Node NULL NULL [100; 111; 103; 0])
                   (Node (Node NULL NULL [116; 0]) NULL [114; 0]) [99; 97] in
  fst (radix_trie_foreach root collect [] None 3 (fun _ => 7)) =
  fst (radix_trie_foreach root collect [] (Some (fun j => Z.of_nat j)) 1024
         (fun _ => 0)).
Proof.
  intros root.
  assert (Hr : reachable root).
  { exact (reach_insert _ [100; 111; 103] []
             (reach_insert _ [99; 97; 114] []
                (reach_insert NULL [99; 97; 116] [] reach_empty
                   ltac:(repeat constructor; unfold nonzero; lia))
                ltac:(repeat constructor; unfold nonzero; lia))
             ltac:(repeat constructor; unfold nonzero; lia)). }
  apply (foreach_ignores_buffer_contents root collect [] None
           (Some (fun j => Z.of_nat j)) 3 1024 (fun _ => 7) (fun _ => 0) Hr
           eq_refl).
Defined.

(** X12.  With [buf] NULL the stack buffer of [RADIX_FORBUFSZ] bytes is
    used and [len] is ignored: every member is shown, cut to its first
    1023 bytes, and no byte at index 1024 or above is written. *)
Theorem foreach_default_buffer
  (root : radix_trie) (ulen : nat) (sbuf : buffer) :
  reachable root ->
  (forall s, c_str s -> radix_trie_lookup root s = true ->
     In (firstn 1023 s) (visited root None ulen sbuf)) /\
  (forall v, In v (visited root None ulen sbuf) ->
     exists s, c_str s /\ radix_trie_lookup root s = true /\ v = firstn 1023 s) /\
  (forall (D : Type) (f : radix_trie_forfn_t D) (d : D) (j : nat),
     (RADIX_FORBUFSZ <= j)%nat ->
     snd (radix_trie_foreach root f d None ulen sbuf) j = sbuf j).
Proof.
  intros Hr. pose proof (reachable_wf _ Hr) as Hwf.
  assert (Hn : (1 <= buffer_len None ulen)%nat) by (vm_compute; lia).
  pose proof (visited_spec root None ulen sbuf Hwf Hn) as Hv.
  change (buffer_len None ulen - 1)%nat with 1023%nat in Hv.
  repeat split.
  - intros s Hs Hl. rewrite Hv. apply in_map.
    apply (lookup_correct _ _ Hwf Hs). exact Hl.
  - intros v Hin. rewrite Hv in Hin. apply in_map_iff in Hin.
    destruct Hin as (s & <- & Hs). exists s.
    pose proof (strings_c_str _ Hwf _ Hs) as Hcs.
    repeat split; auto. apply (lookup_correct _ _ Hwf Hcs). exact Hs.
  - intros D f d j Hj.
    apply (proj2 (foreach_spec root f d None ulen sbuf Hwf Hn)). exact Hj.
Qed.

Lemma foreach_default_buffer_witness :
  let root := Node NULL NULL [99; 97; 116; 0] in
  In (firstn 1023 [99; 97; 116]) (visited root None 0 (fun _ => 7)).
Proof.
  intros root.
  assert (Hr : reachable root)
    by exact (reach_insert NULL [99; 97; 116] [] reach_empty ltac:(repeat constructor; unfold nonzero; lia)).
  apply (proj1 (foreach_default_buffer root 0 (fun _ => 7) Hr) [99; 97; 116]
           ltac:(repeat constructor; unfold nonzero; lia) eq_refl).
Defined.

(** ** The helpers of the walk *)

(** X13.  [radix_trie_diff], as its comment says: the result is at most
    the length of the substring and at most the length of the string
    (it can index the string); up to the result both hold the same
    bytes, none of them the terminator; and when the result is inside
    the substring and both hold the same byte there, that byte is the
    terminator of the string. *)
Theorem diff_contract (substr str : list Z) :
  (radix_trie_diff substr str <= length substr)%nat /\
  (radix_trie_diff substr str <= length str)%nat /\
  firstn (radix_trie_diff substr str) substr =
    firstn (radix_trie_diff substr str) str /\
  (forall i, (i < radix_trie_diff substr str)%nat -> str_at str i <> 0) /\
  ((radix_trie_diff substr str < length substr)%nat ->
   substr_at substr (radix_trie_diff substr str) =
     str_at str (radix_trie_diff substr str) ->
   str_at str (radix_trie_diff substr str) = 0).
Proof.
  repeat split.
  - apply diff_le_substr.
  - apply diff_le_str.
  - apply diff_firstn.
  - intros i Hi. apply (diff_nonzero substr str i Hi).
  - apply diff_stop.
Qed.

(** X14.  [radix_trie_lsfind] stops at the first node whose first byte is
    not below the byte looked for: the nodes passed over all start with
    a smaller byte, the list from the position on starts with a byte
    that is not smaller (or is empty), and together they are the list. *)
Theorem lsfind_position (head : radix_trie) (chr : Z) :
  relink (fst (radix_trie_lsfind head chr)) (snd (radix_trie_lsfind head chr))
    = head /\
  Forall (fun p => substr_at (snd p) 0 < chr) (fst (radix_trie_lsfind head chr)) /\
  head_ge chr (snd (radix_trie_lsfind head chr)).
Proof.
  destruct (radix_trie_lsfind head chr) as [passed pos] eqn:E.
  destruct (lsfind_spec _ _ _ _ E) as (H1 & H2 & H3 & _). auto.
Qed.

(** X15.  [radix_trie_fuse] undoes [radix_trie_split]: splitting a node
    at any index and fusing the prefix node with its only child gives
    the node back, when the allocations succeed. *)
Theorem fuse_undoes_split
  (sib child : radix_trie) (substr : list Z) (diff : nat) (h : heap) :
  fst (alloc h) = true ->
  fst (alloc (snd (alloc (snd (alloc h))))) = true ->
  fst (fst (radix_trie_split sib child substr diff h)) = 0 /\
  fst (radix_trie_fuse
         (snd (fst (radix_trie_split sib child substr diff h)))
         (snd (radix_trie_split sib child substr diff h))) =
  (0, Node sib child substr).
Proof.
  intros H1 H3. unfold radix_trie_split.
  destruct (alloc h) as [ok1 h1]. cbn [fst snd] in *. subst ok1.
  destruct (alloc h1) as [ok2 h2]. cbn [fst snd] in *.
  split; [reflexivity|]. unfold radix_trie_fuse.
  destruct (alloc h2) as [ok3 h3]. cbn [fst snd] in *. subst ok3.
  rewrite firstn_skipn. reflexivity.
Qed.

Lemma fuse_undoes_split_witness :
  fst (radix_trie_fuse
         (snd (fst (radix_trie_split NULL NULL [97; 98; 99; 0] 2 [])))
         (snd (radix_trie_split NULL NULL [97; 98; 99; 0] 2 []))) =
  (0, Node NULL NULL [97; 98; 99; 0]).
Proof.
  apply (proj2 (fuse_undoes_split NULL NULL [97; 98; 99; 0] 2 [] eq_refl eq_refl)).
Defined.

(** ** Invariants *)

(** X16.  Every tree that calls can make, whatever the allocator does,
    keeps the invariants of the structure: no substring is empty, the
    terminator is only ever the last byte of a substring, a terminal
    node has no children, and the first bytes of siblings go strictly
    up. *)
Theorem calls_keep_the_invariants (root : radix_trie) :
  reachable root -> well_formed root.
Proof. apply reachable_wf. Qed.

Lemma calls_keep_the_invariants_witness :
  well_formed (Node NULL (Node NULL NULL [99; 0]) [97; 98]).
Proof.
  apply calls_keep_the_invariants.
  exact (reach_insert _ [97; 98; 100] [true; true; false]
           (reach_insert NULL [97; 98; 99] [] reach_empty
              ltac:(repeat constructor; unfold nonzero; lia))
           ltac:(repeat constructor; unfold nonzero; lia)).
Defined.

Lemma insert_all_reachable_ok l : forall root0 h root h',
  reachable_ok root0 -> Forall c_str l ->
  insert_all l root0 h = Some (root, h') -> reachable_ok root.
Proof.
  induction l as [|str l IH]; intros root0 h root h' Hr Hl Hall; simpl in Hall.
  - injection Hall as <- _. exact Hr.
  - inversion Hl as [|? ? Hs Hl']; subst.
    pose proof (reach_ok_insert root0 str h Hr Hs) as Hr1.
    destruct (radix_trie_insert root0 str h) as [[res root1] h1].
    cbn [fst snd] in Hr1.
    destruct (Z.eqb_spec res 0) as [->|]; [|discriminate].
    apply (IH _ _ _ _ (Hr1 eq_refl) Hl' Hall).
Qed.

(** X17.  The canonical form is unique: two trees made by calls that all
    returned 0 and that answer every lookup alike are the same tree,
    node for node, whatever the calls were. *)
Theorem same_members_same_tree (r1 r2 : radix_trie) :
  reachable_ok r1 -> reachable_ok r2 ->
  (forall s, c_str s -> radix_trie_lookup r1 s = radix_trie_lookup r2 s) ->
  r1 = r2.
Proof.
  intros H1 H2 Hl.
  pose proof (reachable_wf _ (reachable_ok_reachable _ H1)) as Hw1.
  pose proof (reachable_wf _ (reachable_ok_reachable _ H2)) as Hw2.
  apply canonical_unique; auto using reachable_ok_canonical.
  apply same_lookup_same_strings; auto.
Qed.

Lemma same_members_same_tree_witness :
  snd (fst (radix_trie_delete
    (snd (fst (radix_trie_insert
       (snd (fst (radix_trie_insert NULL [97; 98] []))) [97; 99] [])))
    [97; 98] [])) =
  snd (fst (radix_trie_insert NULL [97; 99] [])).
Proof.
  apply same_members_same_tree.
  - apply reach_ok_delete; [|repeat constructor; unfold nonzero; lia | reflexivity].
    apply reach_ok_insert; [|repeat constructor; unfold nonzero; lia | reflexivity].
    apply reach_ok_insert; [constructor | repeat constructor; unfold nonzero; lia | reflexivity].
  - apply reach_ok_insert; [constructor | repeat constructor; unfold nonzero; lia | reflexivity].
  - intros s _. reflexivity.
Defined.

(** X18.  The order of insertion does not matter: two lists with the
    same strings, each inserted with success into the empty tree, give
    the same tree. *)
Theorem insertion_order_is_irrelevant
  (l1 l2 : list (list Z)) (h1 h2 h1' h2' : heap) (r1 r2 : radix_trie) :
  Forall c_str l1 -> Forall c_str l2 ->
  (forall s, In s l1 <-> In s l2) ->
  insert_all l1 NULL h1 = Some (r1, h1') ->
  insert_all l2 NULL h2 = Some (r2, h2') ->
  r1 = r2.
Proof.
  intros Hl1 Hl2 Hsame E1 E2.
  pose proof (insert_all_reachable_ok _ _ _ _ _ reach_ok_empty Hl1 E1) as Hr1.
  pose proof (insert_all_reachable_ok _ _ _ _ _ reach_ok_empty Hl2 E2) as Hr2.
  destruct (insert_all_spec _ _ _ _ _ wf_NULL Hl1 E1) as [Hw1 Hin1].
  destruct (insert_all_spec _ _ _ _ _ wf_NULL Hl2 E2) as [Hw2 Hin2].
  apply canonical_unique; auto using reachable_ok_canonical.
  apply sorted_same_elements; try apply strings_sorted; auto.
  intros x. rewrite Hin1, Hin2, Hsame. simpl. tauto.
Qed.

Lemma insertion_order_witness :
  snd (fst (radix_trie_insert
    (snd (fst (radix_trie_insert
       (snd (fst (radix_trie_insert NULL [99; 97; 116] [])))
       [99; 97; 114] [])))
    [100; 111; 103] [])) =
  snd (fst (radix_trie_insert
    (snd (fst (radix_trie_insert
       (snd (fst (radix_trie_insert NULL [100; 111; 103] [])))
       [99; 97; 114] [])))
    [99; 97; 116] [])).
Proof.
  apply (insertion_order_is_irrelevant
           [[99; 97; 116]; [99; 97; 114]; [100; 111; 103]]
           [[100; 111; 103]; [99; 97; 114]; [99; 97; 116]] [] [] [] []);
    [repeat constructor; unfold nonzero; lia | repeat constructor; unfold nonzero; lia | | reflexivity | reflexivity].
  intros s. simpl. tauto.
Defined.

(** X19.  Delete, then insert, in canonical form: when a member is
    deleted and inserted again, both calls returning 0, in a tree made
    by calls that all returned 0, the tree is again the very tree there
    was before. *)
Theorem insert_undoes_delete
  (root : radix_trie) (str : list Z) (h1 h2 : heap) :
  reachable_ok root -> c_str str -> radix_trie_lookup root str = true ->
  fst (fst (radix_trie_delete root str h1)) = 0 ->
  fst (fst (radix_trie_insert
              (snd (fst (radix_trie_delete root str h1))) str h2)) = 0 ->
  snd (fst (radix_trie_insert
              (snd (fst (radix_trie_delete root str h1))) str h2)) = root.
Proof.
  intros Hr Hs Hl Hd Hi.
  pose proof (reach_ok_delete root str h1 Hr Hs Hd) as Hr1.
  pose proof (reach_ok_insert _ str h2 Hr1 Hs Hi) as Hr2.
  pose proof (reachable_wf _ (reachable_ok_reachable _ Hr)) as Hwf.
  pose proof (reachable_wf _ (reachable_ok_reachable _ Hr1)) as Hwf1.
  pose proof (reachable_wf _ (reachable_ok_reachable _ Hr2)) as Hwf2.
  apply canonical_unique; auto using reachable_ok_canonical.
  apply sorted_same_elements; try apply strings_sorted; auto.
  destruct (insert_strings _ str h2 Hwf1 Hs) as [Hok _].
  intros x. rewrite (Hok Hi), (delete_strings root str h1 Hwf Hs).
  apply (lookup_correct _ _ Hwf Hs) in Hl. split.
  - intros [-> |[_ H]]; auto.
  - intros H. destruct (list_eq_dec Z.eq_dec x str) as [E|E]; auto.
Qed.

Lemma insert_undoes_delete_witness :
  let root := Node NULL (Node (Node NULL NULL [99; 0]) NULL [98; 0]) [97] in
  snd (fst (radix_trie_delete root [97; 98] [])) = Node NULL NULL [97; 99; 0] /\
  snd (fst (radix_trie_insert
              (snd (fst (radix_trie_delete root [97; 98] []))) [97; 98] [])) = root.
Proof.
  intros root. split; [reflexivity|].
  assert (Hr : reachable_ok root).
  { change root with
      (snd (fst (radix_trie_insert
         (snd (fst (radix_trie_insert NULL [97; 99] []))) [97; 98] []))).
    apply reach_ok_insert; [|repeat constructor; unfold nonzero; lia | reflexivity].
    apply reach_ok_insert; [constructor | repeat constructor; unfold nonzero; lia | reflexivity]. }
  apply (insert_undoes_delete root [97; 98] [] [] Hr
           ltac:(repeat constructor; unfold nonzero; lia) eq_refl eq_refl eq_refl).
Defined.
